(** * CepAPI: the postal-code client of [src/utils/cepAPI.js]

    A shallow embedding of the class [CepAPI] and the properties of its
    methods [buscarCep], [validarCep], [formatarCep], [preencherEndereco],
    [buscarEPreencher] and [mostrarErro].

    Strings are modelled by [string], one [ascii] per byte of the UTF-8
    encoding.  The three regular expressions of the file only tell the ten
    ASCII digits from everything else, and a digit is one byte in UTF-8 as it
    is one code unit in a JavaScript string, so removing the non-digits of the
    bytes gives the digits that [replace(/\D/g, '')] gives. *)

From Stdlib Require Import ZArith Ascii String.
From stdpp Require Import base option list strings gmap pretty.

Local Open Scope string_scope.

(** ** The regular expressions *)

Module Regex.

(** [\d]: an ASCII digit (without the [u] and [i] flags together [\d] is
    exactly [0-9]). *)
Definition is_digit (c : ascii) : bool :=
  (Ascii.leb "0" c && Ascii.leb c "9")%char.

Fixpoint all_digits (s : string) : bool :=
  match s with
  | EmptyString => true
  | String c t => is_digit c && all_digits t
  end.

(** [s.replace(/\D/g, '')]: every character that is not a digit is
    replaced by the empty string. *)
Fixpoint remove_non_digits (s : string) : string :=
  match s with
  | EmptyString => EmptyString
  | String c t =>
      if is_digit c then String c (remove_non_digits t) else remove_non_digits t
  end.

(** [\d{n}] matched at the start of [s]: the [n] digits and what follows. *)
Fixpoint digits_prefix (n : nat) (s : string) : option (string * string) :=
  match n with
  | O => Some (EmptyString, s)
  | S n' =>
      match s with
      | EmptyString => None
      | String c t =>
          if is_digit c
          then match digits_prefix n' t with
               | Some (p, r) => Some (String c p, r)
               | None => None
               end
          else None
      end
  end.

(** [/^\d{8}$/.test(s)]: without the [m] flag [^] and [$] are the two ends
    of the input. *)
Definition test_8_digits (s : string) : bool :=
  match digits_prefix 8 s with
  | Some (_, EmptyString) => true
  | _ => false
  end.

(** [(\d{5})(\d{3})] matched at the start of [s]: the two groups and what
    follows the match. *)
Definition match_5_3 (s : string) : option (string * string * string) :=
  match digits_prefix 5 s with
  | Some (g1, r) =>
      match digits_prefix 3 r with
      | Some (g2, rest) => Some (g1, g2, rest)
      | None => None
      end
  | None => None
  end.

(** [s.replace(/(\d{5})(\d{3})/, '$1-$2')]: the pattern has no [g] flag and
    no anchor, so the leftmost match is replaced, once, and the text before
    and after it is kept. *)
Fixpoint replace_5_3 (s : string) : string :=
  match s with
  | EmptyString => EmptyString
  | String c t =>
      match match_5_3 s with
      | Some (g1, g2, rest) => g1 ++ "-" ++ g2 ++ rest
      | None => String c (replace_5_3 t)
      end
  end.

End Regex.

(** ** The two pure methods *)

(** Lines 46 to 48, the text of the method [validarCep]. *)
Definition validarCep (cep : string) : bool := Regex.test_8_digits cep.

(** Lines 55 to 58. *)
Definition formatarCep (cep : string) : string :=
  let cepLimpo := Regex.remove_non_digits cep in
  Regex.replace_5_3 cepLimpo.

(** ** The class body and the methods it declares

    Lines 42 to 58 of the file.  The comment opened on line 42 is closed by
    the first [*/] that follows it, which is on line 54. *)
Definition class_text_42_58 : string :=
"    /** Valida formato do CEP
     @param {string} cep 
     @returns {boolean}
     
    validarCep(cep) {
        return /^\d{8}$/.test(cep);
    }

    /**
     * Formata CEP para exibição
     * @param {string} cep - CEP limpo
     * @returns {string} CEP formatado (00000-000)
     */
    formatarCep(cep) {
        const cepLimpo = cep.replace(/\D/g, '');
        return cepLimpo.replace(/(\d{5})(\d{3})/, '$1-$2');
    }
".

(** The text left once block comments are removed: outside a comment [/*]
    opens one, inside a comment only [*/] closes it. *)
Fixpoint strip_block_comments (in_comment : bool) (s : string) : string :=
  match s with
  | EmptyString => EmptyString
  | String c t =>
      if in_comment then
        match c, t with
        | "*"%char, String "/"%char t' => strip_block_comments false t'
        | _, _ => strip_block_comments true t
        end
      else
        match c, t with
        | "/"%char, String "*"%char t' => strip_block_comments true t'
        | _, _ => String c (strip_block_comments false t)
        end
  end.

(** A method [name] is declared when [name(] is left in the class body. *)
Definition declares (name : string) (class_text : string) : bool :=
  match index 0 (name ++ "(") (strip_block_comments false class_text) with
  | Some _ => true
  | None => false
  end.

(** ** Values, errors and the world the methods act on *)

(** An error object: [new Error(m)] has name [Error]; the engine's own
    errors have the names [TypeError], [SyntaxError] and so on. *)
Record JsError := { name : string; message : string }.

Definition Error (m : string) : JsError := {| name := "Error"; message := m |}.
Definition TypeError (m : string) : JsError :=
  {| name := "TypeError"; message := m |}.

(** What a call gives: a value, or a thrown error (for an [async] method:
    the promise is fulfilled, or rejected). *)
Inductive Outcome (A : Type) : Type :=
  | Return (a : A)
  | Throw (e : JsError).
Arguments Return {A} a.
Arguments Throw {A} e.

(** An element of the page, with the properties the class reads or writes.
    The class only assigns [value], never reads it: the field holds what the
    property was given last (what reading it back gives is up to the kind of
    element: an [input] drops line breaks, a [select] keeps only the value
    of one of its options). *)
Record Element := {
  value : string;
  textContent : string;
  className : string;
  fontSize : string;
  display : string
}.

(** The element a timer's closure holds: one of the document, by its id, or
    one that [createElement] made and nothing inserted. *)
Inductive ElemRef :=
  | Attached (id : string)
  | Detached (i : nat).

(** [setTimeout(() => { elementoErro.style.display = 'none' }, delay)]. *)
Record Timer := { delay : Z; hides : ElemRef }.

(** The record decoded from the service's reply, an object whose values are
    strings: the map holds its own fields.  Reading [dadosCep[campo]] also
    finds what the object inherits, see [record_get]. *)
Abbreviation AddressRecord := (gmap string string).

(** An object whose values are element ids, as its own keys enumerate it. *)
Abbreviation Binding := (list (string * string)).

Inductive CallEvent :=
  | CalledSuccess (dados : AddressRecord)
  | CalledError (e : JsError).

(** [document] is what [getElementById] finds; [console], [requests],
    [writes] and [calls] record, in order, the [console.error] calls, the
    URLs given to [fetch], the assignments [elemento.value = v] and the
    invocations of the caller's handlers. *)
Record World := {
  document : gmap string Element;
  detached : list Element;
  timers : list Timer;
  console : list (string * JsError);
  requests : list string;
  writes : list (string * string);
  calls : list CallEvent
}.

Definition set_document (f : gmap string Element → gmap string Element)
    (w : World) : World :=
  {| document := f (document w); detached := detached w; timers := timers w;
     console := console w; requests := requests w; writes := writes w;
     calls := calls w |}.

Definition add_detached (e : Element) (w : World) : World :=
  {| document := document w; detached := detached w ++ [e];
     timers := timers w; console := console w; requests := requests w;
     writes := writes w; calls := calls w |}.

Definition add_timer (t : Timer) (w : World) : World :=
  {| document := document w; detached := detached w;
     timers := timers w ++ [t]; console := console w; requests := requests w;
     writes := writes w; calls := calls w |}.

Definition add_console (label : string) (e : JsError) (w : World) : World :=
  {| document := document w; detached := detached w; timers := timers w;
     console := console w ++ [(label, e)]; requests := requests w;
     writes := writes w; calls := calls w |}.

Definition add_request (url : string) (w : World) : World :=
  {| document := document w; detached := detached w; timers := timers w;
     console := console w; requests := requests w ++ [url];
     writes := writes w; calls := calls w |}.

Definition add_write (id v : string) (w : World) : World :=
  {| document := document w; detached := detached w; timers := timers w;
     console := console w; requests := requests w;
     writes := writes w ++ [(id, v)]; calls := calls w |}.

Definition add_call (ev : CallEvent) (w : World) : World :=
  {| document := document w; detached := detached w; timers := timers w;
     console := console w; requests := requests w; writes := writes w;
     calls := calls w ++ [ev] |}.

(** A page without elements, before anything happened. *)
Definition empty_world : World :=
  {| document := ∅; detached := []; timers := []; console := [];
     requests := []; writes := []; calls := [] |}.

(** ** Computations: state passing with exceptions *)

Definition Js (A : Type) : Type := World → Outcome A * World.

Definition ret {A} (a : A) : Js A := λ w, (Return a, w).

Definition throw {A} (e : JsError) : Js A := λ w, (Throw e, w).

Definition bind {A B} (m : Js A) (k : A → Js B) : Js B :=
  λ w, match m w with
       | (Return a, w') => k a w'
       | (Throw e, w') => (Throw e, w')
       end.

(** [try { body } catch (error) { handler }] *)
Definition try_catch {A} (body : Js A) (handler : JsError → Js A) : Js A :=
  λ w, match body w with
       | (Return a, w') => (Return a, w')
       | (Throw e, w') => handler e w'
       end.

Notation "'let*' x ':=' m 'in' k" := (bind m (λ x, k))
  (at level 10, x name, m at level 100, k at level 200, only parsing).
Notation "m ;;; k" := (bind m (λ _, k))
  (at level 100, k at level 200, right associativity, only parsing).

(** [list.forEach(f)] *)
Fixpoint forEach {A} (l : list A) (f : A → Js unit) : Js unit :=
  match l with
  | [] => ret tt
  | x :: l' => f x ;;; forEach l' f
  end.

(** ** Objects as [Object.keys] enumerates them

    The own keys of an object come in this order: the keys that are array
    indices (canonical decimal numerals below 2^32 - 1), ascending, then the
    other keys in the order in which they were created. *)

Fixpoint digits_value (acc : N) (s : string) : N :=
  match s with
  | EmptyString => acc
  | String c t => digits_value (10 * acc + (N_of_ascii c - 48)) t
  end.

Definition array_index (k : string) : option N :=
  match k with
  | EmptyString => None
  | String c t =>
      if Regex.all_digits k && (negb (Ascii.eqb c "0") || String.eqb t "")
      then
        let n := digits_value 0 k in
        if (n <? 4294967295)%N then Some n else None
      else None
  end.

(** [o[k]] for an own key. *)
Fixpoint obj_get (o : Binding) (k : string) : option string :=
  match o with
  | [] => None
  | (k', v) :: o' => if decide (k' = k) then Some v else obj_get o' k
  end.

Fixpoint obj_replace (k v : string) (o : Binding) : Binding :=
  match o with
  | [] => []
  | (k', v') :: o' =>
      if decide (k' = k) then (k', v) :: o' else (k', v') :: obj_replace k v o'
  end.

Fixpoint obj_insert_index (n : N) (k v : string) (o : Binding) : Binding :=
  match o with
  | [] => [(k, v)]
  | (k', v') :: o' =>
      match array_index k' with
      | Some n' =>
          if (n' <? n)%N then (k', v') :: obj_insert_index n k v o'
          else (k, v) :: o
      | None => (k, v) :: o
      end
  end.

(** Defining the property [k] of [o]: an existing key keeps its place, a new
    one takes the place its kind gives it. *)
Definition obj_set (o : Binding) (k v : string) : Binding :=
  match obj_get o k with
  | Some _ => obj_replace k v o
  | None =>
      match array_index k with
      | Some n => obj_insert_index n k v o
      | None => o ++ [(k, v)]
      end
  end.

(** [{ ...target, ...source }], [target] holding what is already copied. *)
Definition spread (target source : Binding) : Binding :=
  foldl (λ o e, obj_set o e.1 e.2) target source.

(** ** The class *)

(** An instance: its field [baseURL], and what [this.validarCep] finds. *)
Record CepObj := {
  baseURL : string;
  validarCep_method : option (string → bool)
}.

(** [new CepAPI()]: the constructor sets [baseURL]; the methods are those the
    class body declares. *)
Definition CepAPI : CepObj :=
  {| baseURL := "https://brasilapi.com.br/api/cep/v1";
     validarCep_method :=
       if declares "validarCep" class_text_42_58 then Some validarCep
       else None |}.

(** The instance the class would give were [validarCep] declared. *)
Definition CepAPI_with_validarCep : CepObj :=
  {| baseURL := "https://brasilapi.com.br/api/cep/v1";
     validarCep_method := Some validarCep |}.

(** [this.validarCep(cepLimpo)]: calling what is not a function throws a
    [TypeError]; its message is the engine's, here the one V8 gives. *)
Definition call_validarCep (this : CepObj) (cepLimpo : string) : Js bool :=
  match validarCep_method this with
  | Some f => ret (f cepLimpo)
  | None => throw (TypeError "this.validarCep is not a function")
  end.

Definition console_error (label : string) (e : JsError) : Js unit :=
  λ w, (Return tt, add_console label e w).

Section Lookup.

(** The decoded body is returned as it is, whatever its type. *)
Context {J : Type}.

(** A response: [response.ok], [response.status] and what
    [response.json()] gives. *)
Record Response := { ok : bool; status : Z; json : Outcome J }.

(** The service: what [fetch(url)] settles to. *)
Variable net : string → Outcome Response.

Definition fetch (url : string) : Js Response :=
  λ w, (net url, add_request url w).

Definition response_json (response : Response) : Js J :=
  λ w, (json response, w).

(** Lines 13 to 40. *)
Definition buscarCep (this : CepObj) (cep : string) : Js J :=
  try_catch
    (let cepLimpo := Regex.remove_non_digits cep in
     let* valido := call_validarCep this cepLimpo in
     if negb valido then throw (Error "CEP deve ter 8 dígitos")
     else
       let* response := fetch (baseURL this ++ "/" ++ cepLimpo) in
       if negb (ok response) then
         if (status response =? 404)%Z then throw (Error "CEP não encontrado")
         else throw (Error ("Erro na API: " ++ pretty (status response)))
       else
         let* dados := response_json response in
         ret dados)
    (λ error,
       console_error "Erro ao buscar CEP:" error ;;;
       throw error).

End Lookup.

Arguments Response J : clear implicits.

(** A service that answers every request with [response]. *)
Definition always {J : Type} (response : Response J)
    : string → Outcome (Response J) :=
  λ _, Return response.

(** ** Filling the form *)

Definition camposPadrao : Binding :=
  [("cidade", "cidade"); ("bairro", "bairro"); ("rua", "rua");
   ("estado", "estado"); ("cep", "cep")].

(** [{ ...camposPadrao, ...campos }] *)
Definition camposFinais (campos : Binding) : Binding :=
  spread (spread [] camposPadrao) campos.

(** A string is truthy unless it is empty. *)
Definition truthy (v : string) : bool :=
  match v with
  | EmptyString => false
  | String _ _ => true
  end.

(** [elemento.value = v], as far as the class is concerned: [v] is what the
    property was given. *)
Definition set_value (v : string) (e : Element) : Element :=
  {| value := v; textContent := textContent e; className := className e;
     fontSize := fontSize e; display := display e |}.

(** The string a built-in function gives when it is converted to one (the
    spacing is the engine's, here V8's). *)
Definition native_function (name : string) : string :=
  "function " ++ name ++ "() { [native code] }".

(** What a decoded record inherits from [Object.prototype], by property
    name, as the string that assigning it to [value] converts it to: the
    built-in methods, the constructor [Object] and, through the getter
    [__proto__], the prototype itself.  None of them is falsy. *)
Definition Object_prototype (campo : string) : option string :=
  if bool_decide (campo = "constructor") then Some (native_function "Object")
  else if bool_decide (campo = "__proto__") then Some "[object Object]"
  else if bool_decide
            (campo ∈ ["__defineGetter__"; "__defineSetter__";
                      "hasOwnProperty"; "__lookupGetter__";
                      "__lookupSetter__"; "isPrototypeOf";
                      "propertyIsEnumerable"; "toString"; "valueOf";
                      "toLocaleString"])
       then Some (native_function campo)
  else None.

(** [dadosCep[campo]]: the record's own field when it has one, else what it
    inherits; [None] is [undefined]. *)
Definition record_get (dadosCep : AddressRecord) (campo : string)
    : option string :=
  match dadosCep !! campo with
  | Some v => Some v
  | None => Object_prototype campo
  end.

(** The body of the [forEach] of lines 77 to 82, for the key [campo] whose
    value in [camposFinais] is [id]. *)
Definition preencher_campo (dadosCep : AddressRecord)
    (entry : string * string) : Js unit :=
  λ w,
    let campo := entry.1 in
    let id := entry.2 in
    match document w !! id with
    | Some elemento =>
        match record_get dadosCep campo with
        | Some v =>
            if truthy v
            then (Return tt,
                  add_write id v (set_document (<[id := set_value v elemento]>) w))
            else (Return tt, w)
        | None => (Return tt, w)
        end
    | None => (Return tt, w)
    end.

(** Lines 65 to 83. *)
Definition preencherEndereco (dadosCep : AddressRecord) (campos : Binding)
    : Js unit :=
  forEach (camposFinais campos) (preencher_campo dadosCep).

(** ** Showing an error *)

Definition show_message (mensagem : string) (e : Element) : Element :=
  {| value := value e; textContent := mensagem; className := className e;
     fontSize := fontSize e; display := "block" |}.

(** Lines 124 to 127: the element [createElement('div')] gives, once its
    class and font size are set. *)
Definition new_error_element : Element :=
  {| value := ""; textContent := ""; className := "alert alert-danger mt-2";
     fontSize := "0.875rem"; display := "" |}.

(** Lines 119 to 145. *)
Definition mostrarErro (mensagem : string) : Js unit :=
  λ w,
    match document w !! "cep-erro" with
    | Some elementoErro =>
        (Return tt,
         add_timer {| delay := 5000; hides := Attached "cep-erro" |}
           (set_document (<["cep-erro" := show_message mensagem elementoErro]>) w))
    | None =>
        let elementoErro := new_error_element in
        match document w !! "cep" with
        | Some campoCep =>
            (Return tt,
             add_timer {| delay := 5000; hides := Attached "cep-erro" |}
               (set_document
                  (<["cep-erro" := show_message mensagem elementoErro]>) w))
        | None =>
            (Return tt,
             add_timer {| delay := 5000; hides := Detached (length (detached w)) |}
               (add_detached (show_message mensagem elementoErro) w))
        end
    end.

(** ** Looking up and filling *)

(** A handler of the caller: it gets its argument and the document, returns
    or throws, and leaves a document. *)
Definition Handler (A : Type) : Type :=
  A → gmap string Element → Outcome unit * gmap string Element.

(** The [callback] argument; a property that is absent or is not a function
    is [None]. *)
Record Callback := {
  success : option (Handler AddressRecord);
  error : option (Handler JsError)
}.

Definition call_handler {A} (ev : CallEvent) (h : Handler A) (a : A)
    : Js unit :=
  λ w,
    let r := h a (document w) in
    (r.1, add_call ev (set_document (λ _, r.2) w)).

(** Lines 97 to 99. *)
Definition success_callback (callback : option Callback)
    (dados : AddressRecord) : Js unit :=
  match callback with
  | Some cb =>
      match success cb with
      | Some h => call_handler (CalledSuccess dados) h dados
      | None => ret tt
      end
  | None => ret tt
  end.

(** Lines 105 to 110. *)
Definition error_callback (callback : option Callback) (e : JsError)
    : Js unit :=
  match callback with
  | Some cb =>
      match error cb with
      | Some h => call_handler (CalledError e) h e
      | None => mostrarErro (message e)
      end
  | None => mostrarErro (message e)
  end.

(** Lines 93 to 101, the body of the [try]. *)
Definition buscarEPreencher_try (net : string → Outcome (Response AddressRecord))
    (this : CepObj) (cep : string) (campos : Binding)
    (callback : option Callback) : Js AddressRecord :=
  let* dados := buscarCep net this cep in
  preencherEndereco dados campos ;;;
  success_callback callback dados ;;;
  ret dados.

(** Lines 91 to 113. *)
Definition buscarEPreencher (net : string → Outcome (Response AddressRecord))
    (this : CepObj) (cep : string) (campos : Binding)
    (callback : option Callback) : Js AddressRecord :=
  try_catch
    (buscarEPreencher_try net this cep campos callback)
    (λ error,
       error_callback callback error ;;;
       throw error).

(** ** What the statements below speak of *)

(** The assignments [elemento.value = v] that the [forEach] of
    [preencherEndereco] makes over [entries], the elements being those of
    [doc]. *)
Definition fill_writes (dadosCep : AddressRecord) (doc : gmap string Element)
    (entries : Binding) : list (string * string) :=
  omap (λ entry : string * string,
          match doc !! entry.2 with
          | Some _ =>
              match record_get dadosCep entry.1 with
              | Some v => if truthy v then Some (entry.2, v) else None
              | None => None
              end
          | None => None
          end) entries.

(** The document after the assignments [ws], made in order. *)
Definition assign_values (ws : list (string * string))
    (doc : gmap string Element) : gmap string Element :=
  foldl (λ d e, alter (set_value e.2) e.1 d) doc ws.

(** The world after the assignments [ws], made in order. *)
Definition after_writes (ws : list (string * string)) (w : World) : World :=
  foldl (λ w e, add_write e.1 e.2
                  (set_document (alter (set_value e.2) e.1) w)) w ws.

(** The errors the caller's [error] handler was called with, in order. *)
Definition error_calls (l : list CallEvent) : list JsError :=
  omap (λ ev, match ev with
              | CalledError e => Some e
              | CalledSuccess _ => None
              end) l.

(** The caller's [success] handler, when there is one, returns whenever it
    is called. *)
Definition success_returns (callback : option Callback) : Prop :=
  ∀ h, callback ≫= success = Some h →
       ∀ dados doc, (h dados doc).1 = Return tt.

(** ** Hiding the error *)

Definition hide (e : Element) : Element :=
  {| value := value e; textContent := textContent e; className := className e;
     fontSize := fontSize e; display := "none" |}.

(** Lines 150 to 155. *)
Definition removerErro : Js unit :=
  λ w,
    match document w !! "cep-erro" with
    | Some elementoErro =>
        (Return tt, set_document (<["cep-erro" := hide elementoErro]>) w)
    | None => (Return tt, w)
    end.

Definition set_detached (f : list Element → list Element) (w : World)
    : World :=
  {| document := document w; detached := f (detached w); timers := timers w;
     console := console w; requests := requests w; writes := writes w;
     calls := calls w |}.

(** Lines 140 to 144, the closure given to [setTimeout], when it runs: the
    element it holds is hidden.  [timers] keeps the closures that were
    scheduled; running one does not remove it. *)
Definition run_timer (t : Timer) : Js unit :=
  λ w,
    match hides t with
    | Attached id => (Return tt, set_document (alter hide id) w)
    | Detached i => (Return tt, set_detached (alter hide i) w)
    end.

(** The records the caller's [success] handler was called with, in order. *)
Definition success_calls (l : list CallEvent) : list AddressRecord :=
  omap (λ ev, match ev with
              | CalledSuccess dados => Some dados
              | CalledError _ => None
              end) l.

(** The element [getElementById('cep-erro')] finds, if any, shows
    [mensagem]. *)
Definition error_shown (mensagem : string) (w : World) : Prop :=
  ∃ el, document w !! "cep-erro" = Some el
        ∧ textContent el = mensagem ∧ display el = "block".

(** There is an element [cep], to put the error after, or the error element
    is already there. *)
Definition error_slot (w : World) : Prop :=
  is_Some (document w !! "cep") ∨ is_Some (document w !! "cep-erro").

(** The value last assigned to the element [id] by the assignments [ws]. *)
Definition last_write (id : string) (ws : list (string * string))
    : option string :=
  foldl (λ acc e, if decide (e.1 = id) then Some e.2 else acc) None ws.

(** Reading a field of a world built with the setters. *)
Ltac world_fields :=
  cbn [fst snd document detached timers console requests writes calls
       add_timer add_detached add_console add_request add_write add_call
       set_document set_detached run_timer hides delay] in *.

(** * Properties *)

(** ** The regular expressions *)

Section RegexFacts.

Import Regex.

Lemma length_string_app (a b : string) :
  String.length (a ++ b) = String.length a + String.length b.
Proof. induction a as [|c a IH]; simpl; [done | by rewrite IH]. Qed.

Lemma all_digits_remove_non_digits (s : string) :
  all_digits (remove_non_digits s) = true.
Proof.
  induction s as [|c s IH]; simpl; [done |].
  destruct (is_digit c) eqn:Hc; simpl; [by rewrite Hc |]; done.
Qed.

Lemma remove_non_digits_all_digits (s : string) :
  all_digits s = true → remove_non_digits s = s.
Proof.
  induction s as [|c s IH]; simpl; [done |].
  intros [Hc Hs]%andb_prop. rewrite Hc. by rewrite IH.
Qed.

(** What a successful [\d{n}] splits off. *)
Lemma digits_prefix_Some (n : nat) (s p r : string) :
  digits_prefix n s = Some (p, r) →
  s = p ++ r ∧ String.length p = n ∧ all_digits p = true.
Proof.
  revert s p r. induction n as [|n IH]; intros s p r; simpl.
  - intros [= <- <-]. done.
  - destruct s as [|c s]; [done |].
    destruct (is_digit c) eqn:Hc; [| done].
    destruct (digits_prefix n s) as [[p' r']|] eqn:Hp; [| done].
    intros [= <- <-]. destruct (IH _ _ _ Hp) as (-> & <- & Hd).
    simpl. by rewrite Hc, Hd.
Qed.

(** On digits, [\d{n}] succeeds as soon as there are [n] characters. *)
Lemma digits_prefix_all_digits (n : nat) (s : string) :
  all_digits s = true → (n ≤ String.length s)%nat →
  digits_prefix n s
  = Some (substring 0 n s, substring n (String.length s - n) s).
Proof.
  revert s. induction n as [|n IH]; intros s Hs Hn; simpl.
  - f_equal. f_equal.
    + by destruct s.
    + rewrite Nat.sub_0_r. clear. induction s as [|c s IH]; simpl; [done |].
      f_equal. destruct s; simpl in *; [done | done].
  - destruct s as [|c s]; simpl in *; [lia |].
    apply andb_prop in Hs as [Hc Hs]. rewrite Hc.
    rewrite IH by (done || lia). done.
Qed.

Lemma all_digits_app (a b : string) :
  all_digits (a ++ b) = all_digits a && all_digits b.
Proof.
  induction a as [|c a IH]; simpl; [done |]. by rewrite IH, andb_assoc.
Qed.

Lemma test_8_digits_true (s : string) :
  test_8_digits s = true ↔ String.length s = 8 ∧ all_digits s = true.
Proof.
  unfold test_8_digits. split.
  - destruct (digits_prefix 8 s) as [[p r]|] eqn:Hp; [| done].
    destruct r; [| done]. intros _.
    apply digits_prefix_Some in Hp as (-> & Hl & Hd).
    rewrite length_string_app, all_digits_app, Hd, Hl. done.
  - intros [Hl Hd]. rewrite digits_prefix_all_digits by (done || lia).
    rewrite Hl. simpl.
    do 8 (destruct s as [|? s]; [done |]). by destruct s.
Qed.

Lemma match_5_3_short (s : string) :
  (String.length s < 8)%nat → match_5_3 s = None.
Proof.
  intros Hl. unfold match_5_3.
  destruct (digits_prefix 5 s) as [[g1 r]|] eqn:H1; [| done].
  destruct (digits_prefix 3 r) as [[g2 rest]|] eqn:H2; [| done].
  apply digits_prefix_Some in H1 as (-> & L1 & _).
  apply digits_prefix_Some in H2 as (-> & L2 & _).
  rewrite !length_string_app in Hl. lia.
Qed.

Lemma replace_5_3_short (s : string) :
  (String.length s < 8)%nat → replace_5_3 s = s.
Proof.
  induction s as [|c s IH]; [done |]. intros Hl.
  cbn [replace_5_3]. rewrite match_5_3_short by done.
  rewrite IH; [done |]. simpl in Hl. lia.
Qed.

Lemma all_digits_substring (n m : nat) (s : string) :
  all_digits s = true → all_digits (substring n m s) = true.
Proof.
  revert n m. induction s as [|c s IH]; intros n m Hs.
  - by destruct n, m.
  - simpl in Hs. apply andb_prop in Hs as [Hc Hs].
    destruct n, m; simpl; try done.
    + by rewrite Hc, IH.
    + by apply IH.
    + by apply IH.
Qed.

Lemma length_substring (n m : nat) (s : string) :
  (n + m ≤ String.length s)%nat → String.length (substring n m s) = m.
Proof.
  revert n m. induction s as [|c s IH]; intros n m Hl; simpl in Hl.
  - by destruct n, m; simpl; try lia.
  - destruct n, m; simpl; try done.
    + rewrite IH; [done | lia].
    + apply IH; lia.
    + apply IH; lia.
Qed.

Lemma substring_split (n a b : nat) (s : string) :
  substring n (a + b) s = substring n a s ++ substring (n + a) b s.
Proof.
  revert n a. induction s as [|c s IH]; intros n a.
  - destruct n, a, b; done.
  - destruct n as [|n]; [destruct a as [|a] |]; simpl.
    + by destruct b.
    + rewrite (IH 0%nat). done.
    + apply IH.
Qed.

(** On digits, the replacement is made at the very start when there are at
    least eight of them: the first five, the hyphen, and all the others. *)
Lemma replace_5_3_long (s : string) :
  all_digits s = true → (8 ≤ String.length s)%nat →
  replace_5_3 s
  = substring 0 5 s ++ "-" ++ substring 5 (String.length s - 5) s.
Proof.
  intros Hd Hl. destruct s as [|c s]; [simpl in Hl; lia |].
  cbn [replace_5_3]. unfold match_5_3.
  rewrite digits_prefix_all_digits by (done || lia).
  set (r := substring 5 _ _).
  assert (Hr : all_digits r = true) by by apply all_digits_substring.
  assert (Lr : (3 ≤ String.length r)%nat).
  { unfold r. rewrite length_substring; lia. }
  rewrite (digits_prefix_all_digits 3 r) by done.
  pose proof (digits_prefix_all_digits 3 r Hr Lr) as H3.
  apply digits_prefix_Some in H3 as (H3 & _). by rewrite <- H3.
Qed.

End RegexFacts.

(** ** [validarCep] and [formatarCep] *)

Lemma validarCep_remove_non_digits (cep : string) :
  validarCep (Regex.remove_non_digits cep) = true
  ↔ String.length (Regex.remove_non_digits cep) = 8%nat.
Proof.
  unfold validarCep. rewrite test_8_digits_true.
  pose proof (all_digits_remove_non_digits cep). tauto.
Qed.

(** The text of lines 46 to 48 removes nothing from its argument: the nine
    characters of 01310-100, eight of which are digits, are refused. *)
Lemma validarCep_keeps_hyphen :
  String.length (Regex.remove_non_digits "01310-100") = 8%nat
  ∧ validarCep "01310-100" = false.
Proof. split; reflexivity. Qed.

(** What the text of lines 46 to 48 computes: it accepts its argument
    exactly when the argument itself is eight digits; given what
    [replace(/\D/g, '')] leaves of a string, which is what [buscarCep] passes
    to it, it accepts exactly when eight digits remain. *)
Lemma validarCep_spec (cep : string) :
  (validarCep cep = true
   ↔ String.length cep = 8%nat ∧ Regex.all_digits cep = true)
  ∧ (validarCep (Regex.remove_non_digits cep) = true
     ↔ String.length (Regex.remove_non_digits cep) = 8%nat)
  ∧ validarCep "01310100" = true
  ∧ validarCep "01310-100" = false
  ∧ validarCep "1234567" = false
  ∧ validarCep "abcdefgh" = false.
Proof.
  split; [apply test_8_digits_true |].
  split; [apply validarCep_remove_non_digits |].
  by repeat split.
Qed.

(** C9 (as the spec states it) fails: nine digits are returned neither
    unchanged nor as five digits, a hyphen and three digits. *)
Lemma formatarCep_nine_digits :
  formatarCep "123456789" = "12345-6789"
  ∧ formatarCep "123456789" ≠ Regex.remove_non_digits "123456789"
  ∧ String.length (formatarCep "123456789") ≠ 9%nat.
Proof. repeat split; vm_compute; discriminate. Qed.

(** C9, amended: [formatarCep] removes the non-digits; fewer than eight
    digits are returned unchanged; exactly eight are returned as the first
    five, a hyphen and the last three; more than eight are returned as the
    first five, a hyphen and all the digits after them.  No case raises an
    error.  01310100 gives 01310-100 and 123 gives 123. *)
Theorem formatarCep_spec (cep : string) :
  let d := Regex.remove_non_digits cep in
  ((String.length d < 8)%nat → formatarCep cep = d)
  ∧ (String.length d = 8%nat →
     formatarCep cep = substring 0 5 d ++ "-" ++ substring 5 3 d)
  ∧ ((8 ≤ String.length d)%nat →
     formatarCep cep
     = substring 0 5 d ++ "-" ++ substring 5 (String.length d - 5) d)
  ∧ formatarCep "01310100" = "01310-100"
  ∧ formatarCep "123" = "123".
Proof.
  intros d. unfold formatarCep. fold d.
  assert (Hd : Regex.all_digits d = true)
    by apply all_digits_remove_non_digits.
  split; [apply replace_5_3_short |].
  split; [intros Hl; rewrite replace_5_3_long by (done || lia); by rewrite Hl |].
  split; [by apply replace_5_3_long |].
  by split.
Qed.

(** C10: when more than eight digits are left, [formatarCep] does not return
    them unchanged: it returns the first five, a hyphen, and all the digits
    that follow, those after the eighth included. *)
Theorem formatarCep_more_than_8 (cep : string) :
  (8 < String.length (Regex.remove_non_digits cep))%nat →
  let d := Regex.remove_non_digits cep in
  formatarCep cep ≠ d
  ∧ formatarCep cep
    = substring 0 5 d ++ "-" ++ substring 5 3 d
      ++ substring 8 (String.length d - 8) d.
Proof.
  intros Hl d.
  assert (Hd : Regex.all_digits d = true)
    by apply all_digits_remove_non_digits.
  assert (E : formatarCep cep
              = substring 0 5 d ++ "-" ++ substring 5 (String.length d - 5) d).
  { unfold formatarCep. fold d. apply replace_5_3_long; [done | fold d in Hl; lia]. }
  split.
  - intros Heq. apply (f_equal String.length) in Heq.
    rewrite E, !length_string_app in Heq.
    rewrite !length_substring in Heq by (fold d in Hl; lia).
    simpl in Heq. fold d in Hl. lia.
  - rewrite E. do 2 f_equal.
    replace (String.length d - 5)%nat with (3 + (String.length d - 8))%nat
      by (fold d in Hl; lia).
    apply substring_split.
Qed.

Lemma formatarCep_more_than_8_witness :
  formatarCep "123456789" ≠ "123456789"
  ∧ formatarCep "123456789" = "12345-6789".
Proof. apply (formatarCep_more_than_8 "123456789"). simpl. lia. Defined.

(** ** The class as declared *)

Lemma validarCep_not_declared :
  declares "validarCep" class_text_42_58 = false
  ∧ declares "formatarCep" class_text_42_58 = true.
Proof. split; vm_compute; reflexivity. Qed.

Lemma CepAPI_validarCep_method : validarCep_method CepAPI = None.
Proof. reflexivity. Qed.

(** C2, on the class as declared: the class body does not declare
    [validarCep], so calling it on an instance throws a [TypeError] for every
    string, 01310100 and 01310-100 included, where eight digits should give
    [true]; the world is left as it was. *)
Theorem validarCep_CepAPI_throws (cep : string) (w : World) :
  declares "validarCep" class_text_42_58 = false
  ∧ call_validarCep CepAPI cep w
    = (Throw (TypeError "this.validarCep is not a function"), w)
  ∧ String.length (Regex.remove_non_digits "01310100") = 8%nat
  ∧ (call_validarCep CepAPI "01310100" w).1 ≠ Return true
  ∧ (call_validarCep CepAPI "01310-100" w).1 ≠ Return true.
Proof. split; [by vm_compute |]. by repeat split. Qed.

(** ** [buscarCep] *)

Section BuscarCep.

Context {J : Type} (net : string → Outcome (Response J)).

(** Without the method, the call on line 19 throws; the [catch] logs the
    error and throws it again. *)
Lemma buscarCep_no_method (this : CepObj) (cep : string) (w : World) :
  validarCep_method this = None →
  buscarCep net this cep w
  = (Throw (TypeError "this.validarCep is not a function"),
     add_console "Erro ao buscar CEP:"
       (TypeError "this.validarCep is not a function") w).
Proof.
  intros H. unfold buscarCep, try_catch, bind, call_validarCep.
  rewrite H. reflexivity.
Qed.

(** With the method, a string that does not leave eight digits is refused
    before any request. *)
Lemma buscarCep_invalid (this : CepObj) (f : string → bool) (cep : string)
    (w : World) :
  validarCep_method this = Some f →
  f (Regex.remove_non_digits cep) = false →
  buscarCep net this cep w
  = (Throw (Error "CEP deve ter 8 dígitos"),
     add_console "Erro ao buscar CEP:" (Error "CEP deve ter 8 dígitos") w).
Proof.
  intros H Hf. unfold buscarCep, try_catch, bind, call_validarCep.
  rewrite H. simpl. rewrite Hf. reflexivity.
Qed.

(** With the method and eight digits, one request is made, and the reply
    decides. *)
Lemma buscarCep_valid (this : CepObj) (f : string → bool) (cep : string)
    (w : World) :
  validarCep_method this = Some f →
  f (Regex.remove_non_digits cep) = true →
  let url := baseURL this ++ "/" ++ Regex.remove_non_digits cep in
  let failed (e : JsError) :=
    (Throw e, add_console "Erro ao buscar CEP:" e (add_request url w)) in
  buscarCep net this cep w
  = match net url with
    | Throw e => failed e
    | Return response =>
        if ok response then
          match json response with
          | Return dados => (Return dados, add_request url w)
          | Throw e => failed e
          end
        else if (status response =? 404)%Z
             then failed (Error "CEP não encontrado")
             else failed (Error ("Erro na API: " ++ pretty (status response)))
    end.
Proof.
  intros H Hf url failed.
  unfold buscarCep, try_catch, bind, call_validarCep, fetch, response_json.
  rewrite H. simpl. rewrite Hf. simpl. fold url.
  destruct (net url) as [response|e]; [| done].
  destruct (ok response); simpl.
  - by destruct (json response).
  - by destruct (status response =? 404)%Z.
Qed.

(** Whatever the instance and the reply, [buscarCep] only adds to the
    console and to the requests. *)
Lemma buscarCep_frame (this : CepObj) (cep : string) (w : World) :
  let w' := (buscarCep net this cep w).2 in
  document w' = document w ∧ detached w' = detached w
  ∧ timers w' = timers w ∧ writes w' = writes w ∧ calls w' = calls w.
Proof.
  destruct (validarCep_method this) as [f|] eqn:H.
  - destruct (f (Regex.remove_non_digits cep)) eqn:Hf.
    + rewrite (buscarCep_valid _ _ _ _ H Hf).
      destruct (net _) as [r|e]; [| done].
      destruct (ok r); [by destruct (json r) |].
      by destruct (status r =? 404)%Z.
    + by rewrite (buscarCep_invalid _ _ _ _ H Hf).
  - by rewrite (buscarCep_no_method _ _ _ H).
Qed.

End BuscarCep.

(** C1: the class body does not declare [validarCep] (its text is inside the
    comment opened before it), so on an instance of the class [buscarCep]
    throws a [TypeError] for every string, after logging it, and no request
    is made. *)
Theorem buscarCep_CepAPI_throws :
  declares "validarCep" class_text_42_58 = false
  ∧ ∀ (J : Type) (net : string → Outcome (Response J)) (cep : string)
      (w : World),
      buscarCep net CepAPI cep w
      = (Throw (TypeError "this.validarCep is not a function"),
         add_console "Erro ao buscar CEP:"
           (TypeError "this.validarCep is not a function") w)
      ∧ requests (buscarCep net CepAPI cep w).2 = requests w.
Proof.
  split; [by vm_compute |]. intros J net cep w.
  rewrite (buscarCep_no_method net CepAPI cep w CepAPI_validarCep_method).
  done.
Qed.

(** C3, on the class as declared: for 123 the error thrown is the
    [TypeError] of the missing method, not the error of line 20; no request
    is made. *)
Theorem buscarCep_CepAPI_123 (J : Type) (net : string → Outcome (Response J))
    (w : World) :
  validarCep (Regex.remove_non_digits "123") = false
  ∧ (buscarCep net CepAPI "123" w).1
    = Throw (TypeError "this.validarCep is not a function")
  ∧ (buscarCep net CepAPI "123" w).1 ≠ Throw (Error "CEP deve ter 8 dígitos")
  ∧ requests (buscarCep net CepAPI "123" w).2 = requests w.
Proof.
  rewrite (buscarCep_no_method net CepAPI "123" w CepAPI_validarCep_method).
  by repeat split.
Qed.

(** What lines 19 to 21 give once [validarCep] is declared: every string that
    does not leave eight digits is refused with the error of line 20, and no
    request is made. *)
Lemma buscarCep_with_validarCep_invalid (J : Type)
    (net : string → Outcome (Response J)) (cep : string) (w : World) :
  String.length (Regex.remove_non_digits cep) ≠ 8%nat →
  (buscarCep net CepAPI_with_validarCep cep w).1
  = Throw (Error "CEP deve ter 8 dígitos")
  ∧ requests (buscarCep net CepAPI_with_validarCep cep w).2 = requests w.
Proof.
  intros Hl.
  rewrite (buscarCep_invalid net CepAPI_with_validarCep validarCep cep w
             eq_refl); [done |].
  destruct (validarCep _) eqn:Hv; [| done].
  by apply validarCep_remove_non_digits in Hv.
Qed.

(** C4, on the class as declared: for 01310100 and a service that answers
    404, or 500, the error thrown is the [TypeError] of the missing method
    and the service is never asked. *)
Theorem buscarCep_CepAPI_404 (J : Type) (body : Outcome J) (w : World) :
  let r404 := {| ok := false; status := 404; json := body |} in
  let r500 := {| ok := false; status := 500; json := body |} in
  validarCep (Regex.remove_non_digits "01310100") = true
  ∧ (buscarCep (always r404) CepAPI "01310100" w).1
    = Throw (TypeError "this.validarCep is not a function")
  ∧ (buscarCep (always r404) CepAPI "01310100" w).1
    ≠ Throw (Error "CEP não encontrado")
  ∧ requests (buscarCep (always r404) CepAPI "01310100" w).2 = requests w
  ∧ (buscarCep (always r500) CepAPI "01310100" w).1
    = Throw (TypeError "this.validarCep is not a function")
  ∧ (buscarCep (always r500) CepAPI "01310100" w).1
    ≠ Throw (Error "Erro na API: 500")
  ∧ requests (buscarCep (always r500) CepAPI "01310100" w).2 = requests w.
Proof.
  intros r404 r500.
  rewrite !(buscarCep_no_method _ CepAPI "01310100" w CepAPI_validarCep_method).
  by repeat split.
Qed.

(** What lines 26 to 31 give once [validarCep] is declared: for eight digits
    and a reply that is not [ok], status 404 gives the error of line 28 and
    any other status the error of line 30, whose message ends with the
    status; one request was made, to [baseURL/digits]. *)
Lemma buscarCep_with_validarCep_not_ok (J : Type)
    (net : string → Outcome (Response J)) (cep : string) (w : World)
    (response : Response J) :
  let d := Regex.remove_non_digits cep in
  let url := "https://brasilapi.com.br/api/cep/v1/" ++ d in
  String.length d = 8%nat →
  net url = Return response →
  ok response = false →
  (buscarCep net CepAPI_with_validarCep cep w).1
  = Throw (if decide (status response = 404%Z)
           then Error "CEP não encontrado"
           else Error ("Erro na API: " ++ pretty (status response)))
  ∧ requests (buscarCep net CepAPI_with_validarCep cep w).2
    = (requests w ++ [url])%list.
Proof.
  intros d url Hl Hnet Hok.
  assert (Hv : validarCep d = true).
  { by apply validarCep_remove_non_digits. }
  rewrite (buscarCep_valid net CepAPI_with_validarCep validarCep cep w
             eq_refl Hv).
  change (baseURL CepAPI_with_validarCep ++ "/" ++ Regex.remove_non_digits cep)
    with url.
  rewrite Hnet, Hok.
  destruct (Z.eqb_spec (status response) 404) as [E|E].
  - by rewrite decide_True.
  - by rewrite decide_False.
Qed.

(** The status can be read back from the message of line 30. *)
Lemma status_message_inj (s1 s2 : Z) :
  "Erro na API: " ++ pretty s1 = "Erro na API: " ++ pretty s2 → s1 = s2.
Proof. intros H. simplify_eq/=. by apply (inj pretty). Qed.

(** C5, on the class as declared: for 01310100 and a service that answers
    with a decoded body, the body is not returned: the [TypeError] of the
    missing method is thrown and the service is never asked. *)
Theorem buscarCep_CepAPI_200 (J : Type) (dados : J) (w : World) :
  let r200 := {| ok := true; status := 200; json := Return dados |} in
  (buscarCep (always r200) CepAPI "01310100" w).1
  = Throw (TypeError "this.validarCep is not a function")
  ∧ (buscarCep (always r200) CepAPI "01310100" w).1 ≠ Return dados
  ∧ requests (buscarCep (always r200) CepAPI "01310100" w).2 = requests w.
Proof.
  intros r200.
  rewrite !(buscarCep_no_method _ CepAPI "01310100" w CepAPI_validarCep_method).
  by repeat split.
Qed.

(** What lines 33 and 34 give once [validarCep] is declared: for eight
    digits and a reply that is [ok], the decoded body is returned as it
    is, and nothing is logged. *)
Lemma buscarCep_with_validarCep_ok (J : Type)
    (net : string → Outcome (Response J)) (cep : string) (w : World)
    (response : Response J) (dados : J) :
  let d := Regex.remove_non_digits cep in
  let url := "https://brasilapi.com.br/api/cep/v1/" ++ d in
  String.length d = 8%nat →
  net url = Return response →
  ok response = true →
  json response = Return dados →
  buscarCep net CepAPI_with_validarCep cep w
  = (Return dados, add_request url w).
Proof.
  intros d url Hl Hnet Hok Hjson.
  assert (Hv : validarCep d = true).
  { by apply validarCep_remove_non_digits. }
  rewrite (buscarCep_valid net CepAPI_with_validarCep validarCep cep w
             eq_refl Hv).
  change (baseURL CepAPI_with_validarCep ++ "/" ++ Regex.remove_non_digits cep)
    with url.
  by rewrite Hnet, Hok, Hjson.
Qed.

(** ** Objects *)

Section Objects.

Implicit Types (o : Binding) (k v : string).

Lemma obj_get_None o k : obj_get o k = None ↔ k ∉ o.*1.
Proof.
  induction o as [|[k' v'] o IH]; simpl.
  - split; [intros _; apply not_elem_of_nil | done].
  - rewrite not_elem_of_cons, <- IH.
    case_decide; intuition congruence.
Qed.

Lemma obj_get_Some_elem_of o k v : obj_get o k = Some v → (k, v) ∈ o.
Proof.
  induction o as [|[k' v'] o IH]; simpl; [done |].
  case_decide; [intros [= <-]; subst; left | right; auto].
Qed.

Lemma obj_get_NoDup o k v :
  NoDup o.*1 → (k, v) ∈ o ↔ obj_get o k = Some v.
Proof.
  intros Hnd. split; [| apply obj_get_Some_elem_of].
  induction o as [|[k' v'] o IH]; simpl in *; [by intros ?%elem_of_nil |].
  apply NoDup_cons in Hnd as [Hk Hnd].
  intros [[= -> ->]|Hin]%elem_of_cons; [by rewrite decide_True |].
  rewrite decide_False; [by apply IH |].
  intros ->. apply Hk. by apply (list_elem_of_fmap_2 fst) in Hin.
Qed.

Lemma obj_replace_keys k v o : (obj_replace k v o).*1 = o.*1.
Proof.
  induction o as [|[k' v'] o IH]; simpl; [done |].
  case_decide; simpl; [done | f_equal; apply IH].
Qed.

Lemma obj_get_replace k v o k' :
  is_Some (obj_get o k) →
  obj_get (obj_replace k v o) k' = if decide (k = k') then Some v else obj_get o k'.
Proof.
  induction o as [|[k1 v1] o IH]; simpl; [by intros [? ?] |].
  destruct (decide (k1 = k)) as [->|Hne]; simpl.
  - intros _. by destruct (decide (k = k')).
  - intros Hs. rewrite (IH Hs).
    destruct (decide (k1 = k')), (decide (k = k')); congruence.
Qed.

Lemma obj_insert_index_keys n k v o : (obj_insert_index n k v o).*1 ≡ₚ k :: o.*1.
Proof.
  induction o as [|[k' v'] o IH]; simpl; [done |].
  destruct (array_index k') as [n'|]; [| done].
  destruct (n' <? n)%N; simpl; [| done].
  rewrite IH. apply Permutation_swap.
Qed.

Lemma obj_get_insert_index n k v o k' :
  obj_get o k = None →
  obj_get (obj_insert_index n k v o) k'
  = if decide (k = k') then Some v else obj_get o k'.
Proof.
  induction o as [|[k1 v1] o IH]; simpl; [done |].
  destruct (decide (k1 = k)) as [->|Hne]; [done |]. intros Hn.
  destruct (array_index k1) as [n'|]; [destruct (n' <? n)%N |]; simpl; try done.
  rewrite (IH Hn).
  destruct (decide (k1 = k')), (decide (k = k')); congruence.
Qed.

Lemma obj_get_snoc o k v k' :
  obj_get (o ++ [(k, v)]) k'
  = match obj_get o k' with
    | Some x => Some x
    | None => if decide (k = k') then Some v else None
    end.
Proof.
  induction o as [|[k1 v1] o IH]; simpl; [done |].
  by destruct (decide (k1 = k')).
Qed.

(** Reading a property after one was defined. *)
Lemma obj_get_set o k v k' :
  obj_get (obj_set o k v) k' = if decide (k = k') then Some v else obj_get o k'.
Proof.
  unfold obj_set. destruct (obj_get o k) as [x|] eqn:Hk.
  - by apply obj_get_replace.
  - destruct (array_index k); [by apply obj_get_insert_index |].
    rewrite obj_get_snoc. destruct (decide (k = k')) as [<-|]; [by rewrite Hk |].
    by destruct (obj_get o k').
Qed.

Lemma obj_set_NoDup o k v : NoDup o.*1 → NoDup (obj_set o k v).*1.
Proof.
  intros Hnd. unfold obj_set. destruct (obj_get o k) as [x|] eqn:Hk.
  - by rewrite obj_replace_keys.
  - apply obj_get_None in Hk. destruct (array_index k).
    + rewrite obj_insert_index_keys. by apply NoDup_cons.
    + rewrite fmap_app. simpl. apply NoDup_app. split; [done |].
      split; [| apply NoDup_singleton].
      intros x Hx ->%list_elem_of_singleton. done.
Qed.

Lemma spread_NoDup target source :
  NoDup target.*1 → NoDup (spread target source).*1.
Proof.
  revert target. induction source as [|[k v] source IH]; intros target Hnd.
  - done.
  - apply IH. by apply obj_set_NoDup.
Qed.

(** The properties of the source win over those of the target. *)
Lemma obj_get_spread target source k :
  NoDup source.*1 →
  obj_get (spread target source) k
  = match obj_get source k with
    | Some v => Some v
    | None => obj_get target k
    end.
Proof.
  revert target. induction source as [|[k1 v1] source IH]; intros target Hnd.
  - done.
  - simpl in Hnd. apply NoDup_cons in Hnd as [Hk Hnd].
    change (spread target ((k1, v1) :: source))
      with (spread (obj_set target k1 v1) source).
    rewrite (IH _ Hnd), obj_get_set. simpl.
    destruct (decide (k1 = k)) as [->|]; [| done].
    apply obj_get_None in Hk. by rewrite Hk.
Qed.

Lemma camposFinais_NoDup campos : NoDup (camposFinais campos).*1.
Proof. apply spread_NoDup. compute_done. Qed.

Lemma obj_get_camposFinais campos campo :
  NoDup campos.*1 →
  obj_get (camposFinais campos) campo
  = match obj_get campos campo with
    | Some id => Some id
    | None => obj_get camposPadrao campo
    end.
Proof. intros Hnd. unfold camposFinais. by rewrite obj_get_spread. Qed.

End Objects.

(** ** [preencherEndereco] *)

Section Preencher.

Variable dadosCep : AddressRecord.

Lemma after_writes_app (ws1 ws2 : list (string * string)) (w : World) :
  after_writes (ws1 ++ ws2) w = after_writes ws2 (after_writes ws1 w).
Proof. apply foldl_app. Qed.

Lemma after_writes_spec (ws : list (string * string)) (w : World) :
  let w' := after_writes ws w in
  document w' = assign_values ws (document w)
  ∧ writes w' = (writes w ++ ws)%list
  ∧ detached w' = detached w ∧ timers w' = timers w
  ∧ console w' = console w ∧ requests w' = requests w ∧ calls w' = calls w.
Proof.
  revert w. induction ws as [|[id v] ws IH]; intros w; simpl.
  - by rewrite app_nil_r.
  - destruct (IH (add_write id v (set_document (alter (set_value v) id) w)))
      as (-> & -> & -> & -> & -> & -> & ->).
    simpl. by rewrite <- app_assoc.
Qed.

Lemma assign_values_is_Some (ws : list (string * string))
    (doc : gmap string Element) (id : string) :
  is_Some (assign_values ws doc !! id) ↔ is_Some (doc !! id).
Proof.
  revert doc. induction ws as [|[id' v] ws IH]; intros doc; simpl; [done |].
  unfold assign_values in *. simpl. rewrite IH.
  apply lookup_alter_is_Some.
Qed.

Lemma fill_writes_ext (d1 d2 : gmap string Element) (entries : Binding) :
  (∀ id, is_Some (d1 !! id) ↔ is_Some (d2 !! id)) →
  fill_writes dadosCep d1 entries = fill_writes dadosCep d2 entries.
Proof.
  intros H. unfold fill_writes. apply list_omap_ext, Forall_Forall2_diag.
  apply Forall_forall. intros [campo id] _. simpl. specialize (H id).
  destruct (d1 !! id), (d2 !! id); try done.
  - destruct H as [H _]. by destruct H.
  - destruct H as [_ H]. by destruct H.
Qed.

Lemma preencher_campo_spec (entry : string * string) (w : World) :
  preencher_campo dadosCep entry w
  = (Return tt, after_writes (fill_writes dadosCep (document w) [entry]) w).
Proof.
  unfold preencher_campo, fill_writes. simpl.
  destruct (document w !! entry.2) as [elemento|] eqn:He; [| done].
  destruct (record_get dadosCep entry.1) as [v|]; [| done].
  destruct (truthy v); [| done]. simpl. do 2 f_equal.
  unfold set_document. simpl. f_equal.
  apply map_eq. intros j. rewrite lookup_alter, lookup_insert.
  case_decide; [subst; by rewrite He | done].
Qed.

Lemma forEach_preencher_campo (entries : Binding) (w : World) :
  forEach entries (preencher_campo dadosCep) w
  = (Return tt, after_writes (fill_writes dadosCep (document w) entries) w).
Proof.
  revert w. induction entries as [|entry entries IH]; intros w; [done |].
  cbn [forEach]. unfold bind. rewrite preencher_campo_spec, IH.
  f_equal.
  replace (fill_writes dadosCep (document w) (entry :: entries))
    with (fill_writes dadosCep (document w) [entry]
          ++ fill_writes dadosCep (document w) entries)%list
    by (unfold fill_writes; by rewrite <- omap_app).
  rewrite after_writes_app.
  f_equal. apply fill_writes_ext. intros id.
  destruct (after_writes_spec (fill_writes dadosCep (document w) [entry]) w)
    as (-> & _).
  apply assign_values_is_Some.
Qed.

Lemma elem_of_fill_writes (doc : gmap string Element) (entries : Binding)
    (id v : string) :
  (id, v) ∈ fill_writes dadosCep doc entries
  ↔ ∃ campo, (campo, id) ∈ entries ∧ is_Some (doc !! id)
             ∧ record_get dadosCep campo = Some v ∧ v ≠ "".
Proof.
  unfold fill_writes. rewrite list_elem_of_omap. split.
  - intros ([campo id'] & Hin & H). simpl in H.
    destruct (doc !! id') as [el|] eqn:Hel; [| done].
    destruct (record_get dadosCep campo) as [v'|] eqn:Hv; [| done].
    destruct v' as [|c v']; [done |]. simpl in H. injection H as <- <-.
    exists campo. rewrite Hel. done.
  - intros (campo & Hin & [el Hel] & Hv & Hne).
    exists (campo, id). split; [done |]. simpl. rewrite Hel, Hv.
    by destruct v.
Qed.

End Preencher.

(** C7 (as the spec states it) fails: a field that the record has, with the
    empty string for value, is not written to its element, which exists. *)
Lemma preencherEndereco_skips_empty :
  let dadosCep : AddressRecord := {[ "rua" := "" ]} in
  let antigo :=
    {| value := "antigo"; textContent := ""; className := "";
       fontSize := ""; display := "" |} in
  let w :=
    {| document := {[ "rua" := antigo ]}; detached := []; timers := [];
       console := []; requests := []; writes := []; calls := [] |} in
  obj_get (camposFinais []) "rua" = Some "rua"
  ∧ document w !! "rua" = Some antigo
  ∧ dadosCep !! "rua" = Some ""
  ∧ document (preencherEndereco dadosCep [] w).2 !! "rua" = Some antigo
  ∧ writes (preencherEndereco dadosCep [] w).2 = [].
Proof. by vm_compute. Qed.

(** C7, amended: [preencherEndereco] merges [campos] over the identity
    binding of the five fields, and for each pair (field, id) of the merge it
    assigns [record[field]] to the element with that id if and only if the
    element exists and [record[field]] is truthy: the record's own value
    when it is not the empty string, or, for a field the record does not
    have, what it inherits from [Object.prototype] when the field has the
    name of one of its properties (none of the five fields has).  The other
    pairs are skipped and no error is raised; beside these assignments
    nothing is added to the world. *)
Theorem preencherEndereco_spec (dadosCep : AddressRecord) (campos : Binding)
    (w : World) :
  NoDup campos.*1 →
  let finais := camposFinais campos in
  let r := preencherEndereco dadosCep campos w in
  (∀ campo,
     obj_get finais campo
     = match obj_get campos campo with
       | Some id => Some id
       | None =>
           if bool_decide (campo ∈ ["cep"; "rua"; "bairro"; "cidade"; "estado"])
           then Some campo else None
       end)
  ∧ r.1 = Return tt
  ∧ (∃ ws,
       writes r.2 = (writes w ++ ws)%list
       ∧ ∀ id v,
           (id, v) ∈ ws
           ↔ ∃ campo, obj_get finais campo = Some id
                      ∧ is_Some (document w !! id)
                      ∧ record_get dadosCep campo = Some v ∧ v ≠ "")
  ∧ (∀ campo,
       record_get dadosCep campo
       = match dadosCep !! campo with
         | Some v => Some v
         | None => Object_prototype campo
         end)
  ∧ (∀ campo, campo ∈ ["cep"; "rua"; "bairro"; "cidade"; "estado"] →
              record_get dadosCep campo = dadosCep !! campo)
  ∧ detached r.2 = detached w ∧ timers r.2 = timers w
  ∧ console r.2 = console w ∧ requests r.2 = requests w
  ∧ calls r.2 = calls w.
Proof.
  intros Hnd finais r. split.
  { intros campo. unfold finais. rewrite obj_get_camposFinais by done.
    destruct (obj_get campos campo); [done |].
    unfold camposPadrao. simpl.
    repeat (case_decide; [subst; done |]).
    rewrite bool_decide_eq_false_2; [done |]. intros Hin.
    repeat (apply elem_of_cons in Hin as [->|Hin]; [done |]).
    by apply elem_of_nil in Hin. }
  unfold r, preencherEndereco. rewrite forEach_preencher_campo. simpl.
  destruct (after_writes_spec
              (fill_writes dadosCep (document w) (camposFinais campos)) w)
    as (Hdoc & Hw & -> & -> & -> & -> & ->).
  split; [done |]. split; [| split; [done | split; [| done]]].
  - eexists. split; [exact Hw |].
    intros id v. rewrite elem_of_fill_writes.
    split; intros (campo & H & ?); exists campo; (split; [| done]).
    + by apply obj_get_NoDup; [apply camposFinais_NoDup |].
    + by apply obj_get_Some_elem_of.
  - intros campo Hin. unfold record_get.
    destruct (dadosCep !! campo); [done |].
    repeat (apply elem_of_cons in Hin as [->|Hin]; [done |]).
    by apply elem_of_nil in Hin.
Qed.

Lemma preencherEndereco_spec_witness :
  let dadosCep : AddressRecord := {[ "cidade" := "São Paulo" ]} in
  let campos := [("cidade", "city-input")] in
  let vazio :=
    {| value := ""; textContent := ""; className := ""; fontSize := "";
       display := "" |} in
  let w :=
    {| document := {[ "city-input" := vazio ]}; detached := [];
       timers := []; console := []; requests := []; writes := [];
       calls := [] |} in
  (preencherEndereco dadosCep campos w).1 = Return tt
  ∧ writes (preencherEndereco dadosCep campos w).2
    = [("city-input", "São Paulo")]
  ∧ value <$> document (preencherEndereco dadosCep campos w).2 !! "city-input"
    = Some "São Paulo".
Proof.
  intros dadosCep campos vazio w.
  assert (Hnd : NoDup campos.*1) by (apply NoDup_singleton).
  split; [exact (proj1 (proj2 (preencherEndereco_spec dadosCep campos w Hnd))) |].
  by vm_compute.
Defined.

(** ** [buscarEPreencher] *)

Section BuscarEPreencher.

Variable net : string → Outcome (Response AddressRecord).
Variables (this : CepObj) (cep : string) (campos : Binding).
Variable callback : option Callback.

Lemma preencherEndereco_returns (dados : AddressRecord) (w : World) :
  preencherEndereco dados campos w
  = (Return tt,
     after_writes (fill_writes dados (document w) (camposFinais campos)) w).
Proof. apply forEach_preencher_campo. Qed.

(** [success_callback] and [error_callback] write no value and add nothing
    to the console or the requests. *)
Lemma call_handler_frame {A} (ev : CallEvent) (h : Handler A) (a : A)
    (w : World) :
  call_handler ev h a w
  = ((h a (document w)).1,
     add_call ev (set_document (λ _, (h a (document w)).2) w)).
Proof. reflexivity. Qed.

Lemma success_callback_frame (dados : AddressRecord) (w : World) :
  let w' := (success_callback callback dados w).2 in
  writes w' = writes w ∧ error_calls (calls w') = error_calls (calls w).
Proof.
  unfold success_callback.
  destruct callback as [cb|]; [| done].
  destruct (success cb) as [h|]; [| done]. simpl.
  unfold error_calls. rewrite omap_app. simpl. by rewrite app_nil_r.
Qed.

Lemma success_callback_returns (dados : AddressRecord) (w : World) :
  success_returns callback → (success_callback callback dados w).1 = Return tt.
Proof.
  intros H. unfold success_callback.
  destruct callback as [cb|]; [| done].
  destruct (success cb) as [h|] eqn:Hs; [| done]. simpl.
  by apply H.
Qed.

Lemma mostrarErro_frame (mensagem : string) (w : World) :
  let r := mostrarErro mensagem w in
  r.1 = Return tt ∧ writes r.2 = writes w ∧ calls r.2 = calls w
  ∧ console r.2 = console w ∧ requests r.2 = requests w.
Proof.
  unfold mostrarErro.
  destruct (document w !! "cep-erro"); [done |].
  by destruct (document w !! "cep").
Qed.

Lemma error_callback_writes (e : JsError) (w : World) :
  writes (error_callback callback e w).2 = writes w.
Proof.
  unfold error_callback.
  destruct callback as [cb|]; [| apply mostrarErro_frame].
  destruct (error cb) as [h|]; [done | apply mostrarErro_frame].
Qed.

(** The body of the [try], by what the lookup gives. *)
Lemma buscarEPreencher_try_lookup (w : World) :
  buscarEPreencher_try net this cep campos callback w
  = match buscarCep net this cep w with
    | (Throw e, w1) => (Throw e, w1)
    | (Return dados, w1) =>
        let w2 := (preencherEndereco dados campos w1).2 in
        match success_callback callback dados w2 with
        | (Return _, w3) => (Return dados, w3)
        | (Throw e, w3) => (Throw e, w3)
        end
    end.
Proof.
  unfold buscarEPreencher_try, bind.
  destruct (buscarCep net this cep w) as [[dados|e] w1]; [| done].
  rewrite preencherEndereco_returns. simpl.
  by destruct (success_callback _ _ _) as [[[]|e] w3].
Qed.

(** The whole method, by what the body of the [try] gives. *)
Lemma buscarEPreencher_catch (w : World) :
  buscarEPreencher net this cep campos callback w
  = match buscarEPreencher_try net this cep campos callback w with
    | (Return dados, w1) => (Return dados, w1)
    | (Throw e, w1) =>
        match error_callback callback e w1 with
        | (Return _, w2) => (Throw e, w2)
        | (Throw e', w2) => (Throw e', w2)
        end
    end.
Proof.
  unfold buscarEPreencher, try_catch, bind, throw.
  destruct (buscarEPreencher_try _ _ _ _ _ _) as [[dados|e] w1]; [done |].
  by destruct (error_callback _ _ _) as [[[]|e'] w2].
Qed.

Lemma buscarEPreencher_try_error_calls (w : World) :
  error_calls (calls (buscarEPreencher_try net this cep campos callback w).2)
  = error_calls (calls w).
Proof.
  rewrite buscarEPreencher_try_lookup.
  pose proof (buscarCep_frame net this cep w) as (_ & _ & _ & _ & Hc).
  destruct (buscarCep net this cep w) as [[dados|e] w1]; simpl in *;
    [| by rewrite Hc].
  rewrite preencherEndereco_returns. simpl.
  set (w2 := after_writes _ _).
  pose proof (success_callback_frame dados w2) as [_ Hs].
  assert (calls w2 = calls w) as Hw2.
  { unfold w2. 
    destruct (after_writes_spec
      (fill_writes dados (document w1) (camposFinais campos)) w1)
      as (_ & _ & _ & _ & _ & _ & ->). done. }
  destruct (success_callback callback dados w2) as [[[]|e] w3]; simpl in *;
    by rewrite Hs, Hw2.
Qed.

End BuscarEPreencher.

(** What [mostrarErro] leaves: the error element, in the document or, when
    there is no element [cep] to put it after, outside of it, shows the
    message; one timer of five seconds is added. *)
Lemma mostrarErro_shows (mensagem : string) (w : World) :
  let w' := (mostrarErro mensagem w).2 in
  (∃ el ref,
     textContent el = mensagem ∧ display el = "block"
     ∧ timers w' = (timers w ++ [{| delay := 5000; hides := ref |}])%list
     ∧ ((ref = Attached "cep-erro" ∧ document w' !! "cep-erro" = Some el)
        ∨ (ref = Detached (length (detached w))
           ∧ document w !! "cep" = None
           ∧ document w' = document w
           ∧ detached w' = (detached w ++ [el])%list))).
Proof.
  unfold mostrarErro.
  destruct (document w !! "cep-erro") as [el|] eqn:He; simpl.
  - exists (show_message mensagem el), (Attached "cep-erro").
    do 3 (split; [done |]).
    left. split; [done |]. apply lookup_insert_eq.
  - destruct (document w !! "cep") as [c|] eqn:Hc; simpl.
    + exists (show_message mensagem new_error_element), (Attached "cep-erro").
      do 3 (split; [done |]).
      left. split; [done |]. apply lookup_insert_eq.
    + exists (show_message mensagem new_error_element),
        (Detached (length (detached w))).
      do 3 (split; [done |]).
      by right.
Qed.

(** [mostrarErro] keeps the value of every element. *)
Lemma mostrarErro_values (mensagem : string) (w : World) (id : string)
    (el : Element) :
  document w !! id = Some el →
  value <$> document (mostrarErro mensagem w).2 !! id = Some (value el).
Proof.
  intros Hel. unfold mostrarErro.
  destruct (document w !! "cep-erro") as [el'|] eqn:He; simpl.
  - rewrite lookup_insert. case_decide; [subst | by rewrite Hel].
    rewrite He in Hel. by injection Hel as ->.
  - destruct (document w !! "cep") as [c|] eqn:Hc; simpl;
      [| by rewrite Hel].
    rewrite lookup_insert. case_decide; [subst | by rewrite Hel].
    by rewrite He in Hel.
Qed.

(** C6: no failing call writes a value.  [buscarCep] never touches the
    document.  When it fails, [buscarEPreencher] fails without a write; when
    [buscarEPreencher] returns a record, it is the record [buscarCep]
    returned and the writes are those of [preencherEndereco] for it; a
    failing call of [buscarEPreencher], the caller's success handler
    returning whenever it is called, is one whose [buscarCep] failed.  On
    the class as declared (no [validarCep]) every call is a failing one.
    When [buscarCep] fails and the caller gave no [error] handler, every
    element keeps its value. *)
Theorem failing_call_writes_nothing
    (net : string → Outcome (Response AddressRecord)) (this : CepObj)
    (cep : string) (campos : Binding) (callback : option Callback)
    (w : World) :
  let l := buscarCep net this cep w in
  let r := buscarEPreencher net this cep campos callback w in
  (document l.2 = document w ∧ writes l.2 = writes w)
  ∧ (∀ e, l.1 = Throw e → (∃ e', r.1 = Throw e') ∧ writes r.2 = writes w)
  ∧ (∀ dados, r.1 = Return dados →
       l.1 = Return dados
       ∧ writes r.2 = writes (preencherEndereco dados campos l.2).2)
  ∧ (success_returns callback →
     ∀ e', r.1 = Throw e' → (∃ e, l.1 = Throw e) ∧ writes r.2 = writes w)
  ∧ (validarCep_method this = None →
     (∃ e', r.1 = Throw e') ∧ writes r.2 = writes w)
  ∧ (∀ e, l.1 = Throw e → callback ≫= error = None →
     ∀ id el, document w !! id = Some el →
              value <$> document r.2 !! id = Some (value el)).
Proof.
  intros l r.
  pose proof (buscarCep_frame net this cep w) as (Hdoc & _ & _ & Hwr & _).
  fold l in Hdoc, Hwr.
  assert (Hfail : ∀ e, l.1 = Throw e →
                       (∃ e', r.1 = Throw e') ∧ writes r.2 = writes w).
  { intros e He. unfold r. rewrite buscarEPreencher_catch,
      buscarEPreencher_try_lookup. fold l.
    destruct l as [[dados|e0] w1]; simpl in *; [done |].
    pose proof (error_callback_writes callback e0 w1) as Hw.
    destruct (error_callback callback e0 w1) as [[[]|e1] w2]; simpl in *;
      (split; [by eexists | congruence]). }
  assert (Hret : ∀ dados, r.1 = Return dados →
            l.1 = Return dados
            ∧ writes r.2 = writes (preencherEndereco dados campos l.2).2).
  { intros dados. unfold r. rewrite buscarEPreencher_catch,
      buscarEPreencher_try_lookup. fold l.
    destruct l as [[d|e0] w1]; simpl in *.
    - pose proof (success_callback_frame callback d
                    (preencherEndereco d campos w1).2) as [Hs _].
      destruct (success_callback _ _ _) as [[[]|e1] w3]; simpl in *.
      + intros [= ->]. done.
      + by destruct (error_callback callback e1 w3) as [[[]|e2] w4].
    - by destruct (error_callback callback e0 w1) as [[[]|e1] w2]. }
  split; [done |]. split; [done |]. split; [done |].
  split; [| split].
  - intros Hsucc e' Hr.
    destruct (l.1) as [dados|e] eqn:Hl; [| split; [by eexists | by eapply Hfail]].
    exfalso. revert Hr. unfold r. rewrite buscarEPreencher_catch,
      buscarEPreencher_try_lookup. fold l.
    destruct l as [[d|e0] w1]; simpl in *; [| done].
    pose proof (success_callback_returns callback d
                  (preencherEndereco d campos w1).2 Hsucc) as Hs.
    destruct (success_callback _ _ _) as [[[]|e1] w3]; simpl in *; done.
  - intros Hnone. apply (Hfail (TypeError "this.validarCep is not a function")).
    unfold l. by rewrite (buscarCep_no_method net this cep w Hnone).
  - intros e He Hcb id el Hel. unfold r.
    rewrite buscarEPreencher_catch, buscarEPreencher_try_lookup. fold l.
    destruct l as [[dados|e0] w1]; simpl in *; [done |].
    rewrite <- Hdoc in Hel.
    assert (error_callback callback e0 w1 = mostrarErro (message e0) w1)
      as Hm.
    { unfold error_callback. destruct callback as [cb|]; [| done].
      simpl in Hcb. by rewrite Hcb. }
    rewrite Hm.
    pose proof (mostrarErro_values (message e0) w1 id el Hel) as Hv.
    by destruct (mostrarErro (message e0) w1) as [[[]|e1] w2].
Qed.

Lemma failing_call_writes_nothing_witness :
  let antigo :=
    {| value := "antigo"; textContent := ""; className := "";
       fontSize := ""; display := "" |} in
  let w := set_document (λ _, {[ "cep" := antigo ]}) empty_world in
  let net := always {| ok := false; status := 404; json := Return ∅ |} in
  (buscarCep net CepAPI_with_validarCep "00000000" w).1
  = Throw (Error "CEP não encontrado")
  ∧ document (buscarCep net CepAPI_with_validarCep "00000000" w).2
    = document w
  ∧ ((∃ e', (buscarEPreencher net CepAPI_with_validarCep "00000000" [] None w).1
            = Throw e')
     ∧ writes (buscarEPreencher net CepAPI_with_validarCep "00000000" [] None w).2
    = writes w)
  ∧ value
      <$> document
            (buscarEPreencher net CepAPI_with_validarCep "00000000" [] None w).2
          !! "cep"
    = Some "antigo".
Proof.
  intros antigo w net.
  destruct (failing_call_writes_nothing net CepAPI_with_validarCep "00000000"
              [] None w) as ([Hdoc _] & Hfail & _ & _ & _ & Hval).
  split; [reflexivity |]. split; [exact Hdoc |].
  split; [exact (Hfail (Error "CEP não encontrado") eq_refl) |].
  exact (Hval (Error "CEP não encontrado") eq_refl eq_refl "cep" antigo
           eq_refl).
Defined.

(** C8 (as the spec states it) fails: an [error] handler that throws ends
    the call with its own error, and the original one, here the [TypeError]
    of the class as declared, is not thrown again. *)
Lemma error_handler_error_replaces :
  let original := TypeError "this.validarCep is not a function" in
  let outro := Error "handler" in
  let h : Handler JsError := λ _ doc, (Throw outro, doc) in
  let callback := Some {| success := None; error := Some h |} in
  let net : string → Outcome (Response AddressRecord) :=
    always {| ok := false; status := 404; json := Return ∅ |} in
  (buscarEPreencher_try net CepAPI "123" [] callback empty_world).1
  = Throw original
  ∧ (buscarEPreencher net CepAPI "123" [] callback empty_world).1
    = Throw outro
  ∧ (buscarEPreencher net CepAPI "123" [] callback empty_world).1
    ≠ Throw original.
Proof. by repeat split. Qed.

(** C8, amended: when the body of the [try] of [buscarEPreencher] fails with
    an error, then, if the caller gave an [error] handler, that handler is
    called once, with the error, [mostrarErro] is not called (no element is
    created, no timer set: the world is the one the handler leaves), and the
    error is thrown again when the handler returns, while the error of the
    handler is thrown in its place when the handler throws; if the caller
    gave none, [mostrarErro] is called with the message of the error and the
    error is thrown again. *)
Theorem buscarEPreencher_failure
    (net : string → Outcome (Response AddressRecord)) (this : CepObj)
    (cep : string) (campos : Binding) (callback : option Callback)
    (w w1 : World) (e : JsError) :
  buscarEPreencher_try net this cep campos callback w = (Throw e, w1) →
  let r := buscarEPreencher net this cep campos callback w in
  match callback ≫= error with
  | Some h =>
      r.2 = add_call (CalledError e)
              (set_document (λ _, (h e (document w1)).2) w1)
      ∧ error_calls (calls r.2) = (error_calls (calls w) ++ [e])%list
      ∧ detached r.2 = detached w1 ∧ timers r.2 = timers w1
      ∧ ((h e (document w1)).1 = Return tt → r.1 = Throw e)
      ∧ (∀ e', (h e (document w1)).1 = Throw e' → r.1 = Throw e')
  | None =>
      r = (Throw e, (mostrarErro (message e) w1).2)
      ∧ error_calls (calls r.2) = error_calls (calls w)
  end.
Proof.
  intros Htry r.
  pose proof (buscarEPreencher_try_error_calls net this cep campos callback w)
    as Hcalls. rewrite Htry in Hcalls. simpl in Hcalls.
  unfold r. rewrite buscarEPreencher_catch, Htry. unfold error_callback.
  destruct callback as [cb|]; simpl.
  - destruct (error cb) as [h|]; simpl.
    + unfold call_handler.
      destruct (h e (document w1)) as [[[]|e'] doc']; simpl.
      * split; [done |]. split; [| repeat split; done].
        unfold error_calls in *. rewrite omap_app. simpl.
        by rewrite Hcalls.
      * split; [done |]. split; [| repeat split; try done; by intros ? [= <-]].
        unfold error_calls in *. rewrite omap_app. simpl.
        by rewrite Hcalls.
    + pose proof (mostrarErro_frame (message e) w1) as (Hr & _ & Hc & _).
      destruct (mostrarErro (message e) w1) as [[[]|e'] w2]; simpl in *;
        [by rewrite Hc | done].
  - pose proof (mostrarErro_frame (message e) w1) as (Hr & _ & Hc & _).
    destruct (mostrarErro (message e) w1) as [[[]|e'] w2]; simpl in *;
      [by rewrite Hc | done].
Qed.

Lemma buscarEPreencher_failure_witness :
  let h : Handler JsError := λ _ doc, (Return tt, doc) in
  let callback := Some {| success := None; error := Some h |} in
  let net := always {| ok := false; status := 404; json := Return ∅ |} in
  let e := TypeError "this.validarCep is not a function" in
  let r := buscarEPreencher net CepAPI "123" [] callback empty_world in
  r.1 = Throw e
  ∧ error_calls (calls r.2) = [e]
  ∧ detached r.2 = [] ∧ timers r.2 = [].
Proof.
  intros h callback net e r.
  pose proof (buscarEPreencher_failure net CepAPI "123" [] callback
                empty_world (add_console "Erro ao buscar CEP:" e empty_world)
                e eq_refl) as (_ & Hcalls & Hdet & Htim & Hthrow & _).
  split; [exact (Hthrow eq_refl) |].
  split; [exact Hcalls |]. split; [exact Hdet | exact Htim].
Defined.

(** * More of the class *)

(** ** Formatting and the digits *)

Section FormatFacts.

Import Regex.

Lemma remove_non_digits_app (a b : string) :
  remove_non_digits (a ++ b) = remove_non_digits a ++ remove_non_digits b.
Proof.
  induction a as [|c a IH]; simpl; [done |].
  destruct (is_digit c); simpl; by rewrite IH.
Qed.

Lemma substring_full (s : string) : substring 0 (String.length s) s = s.
Proof. induction s as [|c s IH]; simpl; [done | by rewrite IH]. Qed.

(** The replacement only adds a hyphen: removing the non-digits again gives
    the digits back. *)
Lemma remove_non_digits_replace_5_3 (d : string) :
  all_digits d = true → remove_non_digits (replace_5_3 d) = d.
Proof.
  intros Hd. destruct (le_lt_dec 8 (String.length d)) as [Hl|Hl].
  - rewrite replace_5_3_long by done.
    assert (E : ∀ x, remove_non_digits ("-" ++ x) = remove_non_digits x)
      by done.
    rewrite remove_non_digits_app, E.
    rewrite !remove_non_digits_all_digits by by apply all_digits_substring.
    pose proof (substring_split 0 5 (String.length d - 5) d) as H.
    change (0 + 5)%nat with 5%nat in H. rewrite <- H.
    replace (5 + (String.length d - 5))%nat with (String.length d) by lia.
    apply substring_full.
  - rewrite replace_5_3_short by done.
    by apply remove_non_digits_all_digits.
Qed.

End FormatFacts.

(** X1: formatting keeps the digits: removing the non-digits of
    [formatarCep cep] gives the digits of [cep], so the formatted code is
    valid, once stripped, exactly when [cep] is. *)
Theorem formatarCep_keeps_digits (cep : string) :
  Regex.remove_non_digits (formatarCep cep) = Regex.remove_non_digits cep
  ∧ validarCep (Regex.remove_non_digits (formatarCep cep))
    = validarCep (Regex.remove_non_digits cep).
Proof.
  assert (Regex.remove_non_digits (formatarCep cep)
          = Regex.remove_non_digits cep) as H.
  { apply remove_non_digits_replace_5_3, all_digits_remove_non_digits. }
  by rewrite H.
Qed.

(** X2: [formatarCep] is idempotent: formatting what it returned changes
    nothing. *)
Theorem formatarCep_idempotent (cep : string) :
  formatarCep (formatarCep cep) = formatarCep cep.
Proof.
  unfold formatarCep at 1 3.
  change (Regex.replace_5_3 (Regex.remove_non_digits cep))
    with (formatarCep cep) at 1.
  unfold formatarCep at 1.
  by rewrite remove_non_digits_replace_5_3
    by apply all_digits_remove_non_digits.
Qed.

(** ** Requests and the console *)

(** X4: [buscarCep] makes one request, to [baseURL/digits], when
    [this.validarCep] exists and accepts the digits, and none otherwise;
    it never makes a second one. *)
Theorem buscarCep_requests {J : Type} (net : string → Outcome (Response J))
    (this : CepObj) (cep : string) (w : World) :
  let d := Regex.remove_non_digits cep in
  let url := baseURL this ++ "/" ++ d in
  let r := buscarCep net this cep w in
  match validarCep_method this with
  | Some f =>
      if f d then requests r.2 = (requests w ++ [url])%list
      else requests r.2 = requests w
  | None => requests r.2 = requests w
  end.
Proof.
  intros d url r. unfold r.
  destruct (validarCep_method this) as [f|] eqn:H.
  - destruct (f d) eqn:Hf.
    + rewrite (buscarCep_valid net this f cep w H Hf). fold d url.
      destruct (net _) as [resp|e]; [| done].
      destruct (ok resp); [by destruct (json resp) |].
      by destruct (status resp =? 404)%Z.
    + by rewrite (buscarCep_invalid net this f cep w H Hf).
  - by rewrite (buscarCep_no_method net this cep w H).
Qed.

(** X5: [buscarCep] logs exactly when it fails: the error it throws is the
    one entry it adds to the console, and a call that returns adds none. *)
Theorem buscarCep_logs_what_it_throws {J : Type}
    (net : string → Outcome (Response J)) (this : CepObj) (cep : string)
    (w : World) :
  let r := buscarCep net this cep w in
  match r.1 with
  | Throw e => console r.2 = (console w ++ [("Erro ao buscar CEP:", e)])%list
  | Return _ => console r.2 = console w
  end.
Proof.
  intros r. unfold r.
  destruct (validarCep_method this) as [f|] eqn:H.
  - destruct (f (Regex.remove_non_digits cep)) eqn:Hf.
    + rewrite (buscarCep_valid net this f cep w H Hf).
      destruct (net _) as [resp|e]; [| done].
      destruct (ok resp); [by destruct (json resp) |].
      by destruct (status resp =? 404)%Z.
    + by rewrite (buscarCep_invalid net this f cep w H Hf).
  - by rewrite (buscarCep_no_method net this cep w H).
Qed.

(** X6: what [fetch] or [response.json()] rejects with is thrown by
    [buscarCep] as it is, after the one request. *)
Theorem buscarCep_rejection_passes {J : Type}
    (net : string → Outcome (Response J)) (this : CepObj)
    (f : string → bool) (cep : string) (w : World) (e : JsError) :
  validarCep_method this = Some f →
  f (Regex.remove_non_digits cep) = true →
  let url := baseURL this ++ "/" ++ Regex.remove_non_digits cep in
  (net url = Throw e
   ∨ ∃ response, net url = Return response ∧ ok response = true
                 ∧ json response = Throw e) →
  buscarCep net this cep w
  = (Throw e, add_console "Erro ao buscar CEP:" e (add_request url w)).
Proof.
  intros H Hf url Hnet.
  rewrite (buscarCep_valid net this f cep w H Hf). fold url.
  destruct Hnet as [-> | (response & -> & -> & ->)]; done.
Qed.

Lemma buscarCep_rejection_passes_witness :
  let e := TypeError "Failed to fetch" in
  let net : string → Outcome (Response AddressRecord) := λ _, Throw e in
  buscarCep net CepAPI_with_validarCep "01310-100" empty_world
  = (Throw e,
     add_console "Erro ao buscar CEP:" e
       (add_request "https://brasilapi.com.br/api/cep/v1/01310100"
          empty_world)).
Proof.
  intros e net.
  apply (buscarCep_rejection_passes net CepAPI_with_validarCep validarCep
           "01310-100" empty_world e); [reflexivity | reflexivity |].
  left. reflexivity.
Defined.

(** X7: a code and its formatted form are looked up alike: [buscarCep] and
    [buscarEPreencher] do for [formatarCep cep] what they do for [cep]. *)
Theorem lookup_of_formatted (net : string → Outcome (Response AddressRecord))
    (this : CepObj) (cep : string) (campos : Binding)
    (callback : option Callback) (w : World) :
  buscarCep net this (formatarCep cep) w = buscarCep net this cep w
  ∧ buscarEPreencher net this (formatarCep cep) campos callback w
    = buscarEPreencher net this cep campos callback w.
Proof.
  assert (H : ∀ (J : Type) (n : string → Outcome (Response J)),
            buscarCep n this (formatarCep cep) = buscarCep n this cep).
  { intros J n. unfold buscarCep, formatarCep.
    by rewrite remove_non_digits_replace_5_3
      by apply all_digits_remove_non_digits. }
  split; [by rewrite H |].
  unfold buscarEPreencher, buscarEPreencher_try. by rewrite H.
Qed.

(** ** What [preencherEndereco] leaves of the page *)

Section Assignments.

Implicit Types (ws : list (string * string)) (doc : gmap string Element).

Lemma assign_values_snoc ws e doc :
  assign_values (ws ++ [e]) doc
  = alter (set_value e.2) e.1 (assign_values ws doc).
Proof. unfold assign_values. by rewrite foldl_app. Qed.

Lemma last_write_snoc id ws e :
  last_write id (ws ++ [e])
  = if decide (e.1 = id) then Some e.2 else last_write id ws.
Proof. unfold last_write. by rewrite foldl_app. Qed.

(** An element has the value last assigned to it, and its other properties
    as before. *)
Lemma assign_values_lookup ws doc id :
  assign_values ws doc !! id
  = match last_write id ws with
    | Some v => set_value v <$> doc !! id
    | None => doc !! id
    end.
Proof.
  induction ws as [|[id' v'] ws IH] using rev_ind; [done |].
  rewrite assign_values_snoc, last_write_snoc, lookup_alter. simpl.
  destruct (decide (id' = id)) as [->|Hne]; [| exact IH].
  rewrite IH. destruct (last_write id ws); [| done].
  by destruct (doc !! id).
Qed.

Lemma last_write_None id ws : id ∉ ws.*1 → last_write id ws = None.
Proof.
  induction ws as [|e ws IH] using rev_ind; [done |].
  rewrite fmap_app, not_elem_of_app. simpl. intros [H1 H2].
  rewrite last_write_snoc, decide_False; [by apply IH |].
  intros <-. apply H2. by left.
Qed.

End Assignments.

Section Filling.

Variable dadosCep : AddressRecord.

Lemma fill_writes_targets (doc : gmap string Element) (entries : Binding)
    (id : string) :
  id ∈ (fill_writes dadosCep doc entries).*1 → id ∈ entries.*2.
Proof.
  intros ([id' v] & -> & Hin)%list_elem_of_fmap.
  apply elem_of_fill_writes in Hin as (campo & Hin & _).
  apply list_elem_of_fmap. by exists (campo, id').
Qed.

Lemma fill_writes_cons (doc : gmap string Element) (entry : string * string)
    (entries : Binding) :
  fill_writes dadosCep doc (entry :: entries)
  = (fill_writes dadosCep doc [entry] ++ fill_writes dadosCep doc entries)%list.
Proof. unfold fill_writes. by rewrite <- omap_app. Qed.

Lemma filter_other_targets (id : string) (ws : list (string * string)) :
  id ∉ ws.*1 → filter (λ e : string * string, e.1 = id) ws = [].
Proof.
  induction ws as [|[id' v'] ws IH]; [done |].
  rewrite fmap_cons, not_elem_of_cons. simpl. intros [Hne Hin].
  rewrite filter_cons_False by (simpl; congruence). by apply IH.
Qed.

(** When no other field is bound to the same element, the one assignment
    to the element is that of the field. *)
Lemma filter_fill_writes (doc : gmap string Element) (entries : Binding)
    (campo id v : string) :
  NoDup entries.*2 → (campo, id) ∈ entries →
  is_Some (doc !! id) → record_get dadosCep campo = Some v → v ≠ "" →
  filter (λ e : string * string, e.1 = id) (fill_writes dadosCep doc entries)
  = [(id, v)].
Proof.
  intros Hnd Hin [el Hel] Hv Hne.
  induction entries as [|[campo' id'] entries IH]; [by apply elem_of_nil in Hin |].
  simpl in Hnd. apply NoDup_cons in Hnd as [Hid Hnd].
  rewrite fill_writes_cons, filter_app.
  apply elem_of_cons in Hin as [[= <- <-]|Hin].
  - assert (fill_writes dadosCep doc [(campo, id)] = [(id, v)]) as ->.
    { unfold fill_writes. simpl. rewrite Hel, Hv. by destruct v. }
    rewrite filter_cons_True by done.
    rewrite (filter_other_targets id (fill_writes dadosCep doc entries)).
    + done.
    + intros H. by apply fill_writes_targets in H.
  - assert (id' ≠ id) as Hother.
    { intros ->. apply Hid. apply list_elem_of_fmap. by exists (campo, id). }
    rewrite (filter_other_targets id (fill_writes dadosCep doc [_])).
    + by apply IH.
    + intros H%fill_writes_targets. simpl in H.
      apply list_elem_of_singleton in H. congruence.
Qed.

End Filling.

(** X8: when, for every field of the merged binding, [record[field]] is
    undefined or the empty string, or when the page has none of the bound
    elements, [preencherEndereco] changes nothing at all. *)
Theorem preencherEndereco_nothing_to_fill (dadosCep : AddressRecord)
    (campos : Binding) (w : World) :
  (∀ campo id v, obj_get (camposFinais campos) campo = Some id →
                 record_get dadosCep campo = Some v → v = "")
  ∨ (∀ campo id, obj_get (camposFinais campos) campo = Some id →
                 document w !! id = None) →
  preencherEndereco dadosCep campos w = (Return tt, w).
Proof.
  intros H. unfold preencherEndereco. rewrite forEach_preencher_campo.
  assert (fill_writes dadosCep (document w) (camposFinais campos) = []) as ->;
    [| done].
  destruct (fill_writes _ _ _) as [|[id v] ws] eqn:Hf; [done |]. exfalso.
  assert ((id, v) ∈ fill_writes dadosCep (document w) (camposFinais campos))
    as Hin by (rewrite Hf; left).
  apply elem_of_fill_writes in Hin as (campo & Hin & [el Hel] & Hv & Hne).
  apply obj_get_NoDup in Hin; [| apply camposFinais_NoDup].
  destruct H as [H|H].
  - by apply Hne, (H campo id).
  - rewrite (H _ _ Hin) in Hel. done.
Qed.

Lemma preencherEndereco_nothing_to_fill_witness :
  let antigo :=
    {| value := "antigo"; textContent := ""; className := "";
       fontSize := ""; display := "" |} in
  let w := set_document (λ _, {[ "rua" := antigo ]}) empty_world in
  preencherEndereco {[ "rua" := "" ]} [] w = (Return tt, w).
Proof.
  intros antigo w.
  apply (preencherEndereco_nothing_to_fill {[ "rua" := "" ]} [] w).
  left. intros campo id v Hget.
  assert (Hin : campo ∈ ["cidade"; "bairro"; "rua"; "estado"; "cep"]).
  { apply obj_get_Some_elem_of in Hget.
    apply (list_elem_of_fmap_2 fst) in Hget. exact Hget. }
  repeat (apply elem_of_cons in Hin as [->|Hin];
          [vm_compute; congruence |]).
  by apply elem_of_nil in Hin.
Defined.

(** X9: [preencherEndereco] neither adds nor removes an element, changes no
    property of an element other than its value, and leaves alone every
    element that no field is bound to. *)
Theorem preencherEndereco_keeps_elements (dadosCep : AddressRecord)
    (campos : Binding) (w : World) (id : string) :
  let w' := (preencherEndereco dadosCep campos w).2 in
  (is_Some (document w' !! id) ↔ is_Some (document w !! id))
  ∧ (∀ el', document w' !! id = Some el' →
       ∃ el, document w !! id = Some el
             ∧ textContent el' = textContent el
             ∧ className el' = className el
             ∧ fontSize el' = fontSize el
             ∧ display el' = display el)
  ∧ ((∀ campo, obj_get (camposFinais campos) campo ≠ Some id) →
     document w' !! id = document w !! id).
Proof.
  intros w'. unfold w', preencherEndereco. rewrite forEach_preencher_campo.
  simpl.
  set (ws := fill_writes dadosCep (document w) (camposFinais campos)).
  destruct (after_writes_spec ws w) as (-> & _).
  split; [apply assign_values_is_Some |]. split.
  - intros el'. rewrite assign_values_lookup.
    destruct (last_write id ws) as [v|].
    + destruct (document w !! id) as [el|]; [| done].
      intros [= <-]. by exists el.
    + intros Hel. by exists el'.
  - intros Hno. rewrite assign_values_lookup, last_write_None; [done |].
    intros Hin%fill_writes_targets.
    apply list_elem_of_fmap in Hin as ([campo id'] & -> & Hin).
    apply obj_get_NoDup in Hin; [| apply camposFinais_NoDup].
    by apply (Hno campo).
Qed.

(** X10: when no two fields are bound to the same element, the element of
    a field for which [record[field]] is truthy, if it exists, is assigned
    exactly once, and what it is assigned is that value. *)
Theorem preencherEndereco_assigns_once (dadosCep : AddressRecord)
    (campos : Binding) (w : World) (campo id v : string) :
  NoDup (camposFinais campos).*2 →
  obj_get (camposFinais campos) campo = Some id →
  is_Some (document w !! id) →
  record_get dadosCep campo = Some v →
  v ≠ "" →
  ∃ ws,
    writes (preencherEndereco dadosCep campos w).2 = (writes w ++ ws)%list
    ∧ filter (λ e : string * string, e.1 = id) ws = [(id, v)].
Proof.
  intros Hnd Hget Hel Hv Hne.
  unfold preencherEndereco. rewrite forEach_preencher_campo. simpl.
  destruct (after_writes_spec
              (fill_writes dadosCep (document w) (camposFinais campos)) w)
    as (_ & -> & _).
  eexists. split; [done |].
  apply (filter_fill_writes dadosCep (document w) (camposFinais campos)
           campo id v); try done.
  by apply obj_get_Some_elem_of.
Qed.

Lemma preencherEndereco_assigns_once_witness :
  let vazio :=
    {| value := ""; textContent := ""; className := "form-control";
       fontSize := ""; display := "" |} in
  let w := set_document (λ _, {[ "city-input" := vazio ]}) empty_world in
  ∃ ws,
    writes
      (preencherEndereco {[ "cidade" := "Recife" ]} [("cidade", "city-input")]
         w).2 = ([] ++ ws)%list
    ∧ filter (λ e : string * string, e.1 = "city-input") ws
      = [("city-input", "Recife")].
Proof.
  intros vazio w.
  apply (preencherEndereco_assigns_once {[ "cidade" := "Recife" ]}
           [("cidade", "city-input")] w "cidade" "city-input" "Recife");
    [compute_done | reflexivity | by eexists | reflexivity | discriminate].
Defined.

(** X11: filling twice with the same record and binding leaves the page as
    filling once does. *)
Theorem preencherEndereco_idempotent (dadosCep : AddressRecord)
    (campos : Binding) (w : World) :
  let w1 := (preencherEndereco dadosCep campos w).2 in
  document (preencherEndereco dadosCep campos w1).2 = document w1.
Proof.
  intros w1. unfold w1, preencherEndereco.
  rewrite !forEach_preencher_campo. simpl.
  set (ws := fill_writes dadosCep (document w) (camposFinais campos)).
  destruct (after_writes_spec ws w) as (Hdoc & _). rewrite Hdoc.
  rewrite (fill_writes_ext dadosCep (assign_values ws (document w))
             (document w)) by (intros; apply assign_values_is_Some).
  fold ws.
  destruct (after_writes_spec ws (after_writes ws w)) as (-> & _).
  rewrite Hdoc. apply map_eq. intros id.
  rewrite !assign_values_lookup.
  destruct (last_write id ws) as [v|]; [| done].
  by destruct (document w !! id).
Qed.

(** ** Showing and hiding the error *)

Section ErrorElement.

Lemma show_message_twice (m1 m2 : string) (el : Element) :
  show_message m2 (show_message m1 el) = show_message m2 el.
Proof. reflexivity. Qed.

(** On a page with a place for it, [mostrarErro] leaves the error element in
    the document, showing the message, and creates nothing outside of it. *)
Lemma mostrarErro_slot (mensagem : string) (w : World) :
  error_slot w →
  ∃ el0,
    mostrarErro mensagem w
    = (Return tt,
       add_timer {| delay := 5000; hides := Attached "cep-erro" |}
         (set_document (<["cep-erro" := show_message mensagem el0]>) w))
    ∧ (document w !! "cep-erro" = Some el0
       ∨ (document w !! "cep-erro" = None ∧ el0 = new_error_element)).
Proof.
  intros Hslot. unfold mostrarErro.
  destruct (document w !! "cep-erro") as [el|] eqn:He.
  - exists el. split; [done | by left].
  - destruct (document w !! "cep") as [c|] eqn:Hc.
    + exists new_error_element. split; [done | by right].
    + destruct Hslot as [[? ?]|[? ?]]; congruence.
Qed.

(** Without one, it leaves the document as it is and makes an element that
    is in no document. *)
Lemma mostrarErro_no_slot (mensagem : string) (w : World) :
  document w !! "cep" = None → document w !! "cep-erro" = None →
  mostrarErro mensagem w
  = (Return tt,
     add_timer {| delay := 5000; hides := Detached (length (detached w)) |}
       (add_detached (show_message mensagem new_error_element) w)).
Proof. intros Hc He. unfold mostrarErro. by rewrite He, Hc. Qed.

Lemma removerErro_spec (w : World) :
  removerErro w = (Return tt, set_document (alter hide "cep-erro") w).
Proof.
  assert (Hdoc : alter hide "cep-erro" (document w)
                 = match document w !! "cep-erro" with
                   | Some el => <["cep-erro" := hide el]> (document w)
                   | None => document w
                   end).
  { apply map_eq. intros id. rewrite lookup_alter.
    destruct (decide ("cep-erro" = id)) as [<-|Hne].
    - destruct (document w !! "cep-erro") as [el|] eqn:He; [| done].
      by rewrite lookup_insert_eq.
    - destruct (document w !! "cep-erro") as [el|]; [| done].
      by rewrite lookup_insert_ne. }
  unfold removerErro, set_document. rewrite Hdoc.
  destruct (document w !! "cep-erro"); [done |]. by destruct w.
Qed.

End ErrorElement.

(** X12: on a page that has the element [cep], or already the error element,
    the last call of [mostrarErro] wins: after two calls the document is the
    one the second call alone would leave, it shows the second message, no
    element was made outside the document, and two timers are pending. *)
Theorem mostrarErro_last_call_wins (m1 m2 : string) (w : World) :
  error_slot w →
  let w1 := (mostrarErro m1 w).2 in
  let w2 := (mostrarErro m2 w1).2 in
  document w2 = document (mostrarErro m2 w).2
  ∧ error_shown m2 w2
  ∧ detached w2 = detached w
  ∧ timers w2
    = (timers w ++ [{| delay := 5000; hides := Attached "cep-erro" |};
                    {| delay := 5000; hides := Attached "cep-erro" |}])%list.
Proof.
  intros Hslot w1 w2.
  destruct (mostrarErro_slot m1 w Hslot) as (el0 & H1 & Hel0).
  destruct (mostrarErro_slot m2 w Hslot) as (el0' & H2 & Hel0').
  assert (el0' = el0) as ->.
  { destruct Hel0 as [H|[H ->]], Hel0' as [H'|[H' ->]]; congruence. }
  assert (Hslot1 : error_slot w1).
  { right. unfold w1. rewrite H1. simpl. rewrite lookup_insert_eq. by eexists. }
  destruct (mostrarErro_slot m2 w1 Hslot1) as (el1 & H12 & Hel1).
  assert (el1 = show_message m1 el0) as ->.
  { unfold w1 in Hel1. rewrite H1 in Hel1. world_fields.
    rewrite lookup_insert_eq in Hel1. destruct Hel1 as [H|[H _]]; congruence. }
  unfold w2. rewrite H12, H2. unfold w1. rewrite H1. simpl.
  rewrite insert_insert_eq, show_message_twice.
  split; [done |]. split; [| split; [done | by rewrite <- app_assoc]].
  exists (show_message m2 el0). world_fields. by rewrite lookup_insert_eq.
Qed.

Lemma mostrarErro_last_call_wins_witness :
  let campo :=
    {| value := "01310-100"; textContent := ""; className := "form-control";
       fontSize := ""; display := "" |} in
  let w := set_document (λ _, {[ "cep" := campo ]}) empty_world in
  error_shown "segundo" (mostrarErro "segundo" (mostrarErro "primeiro" w).2).2
  ∧ detached (mostrarErro "segundo" (mostrarErro "primeiro" w).2).2 = [].
Proof.
  intros campo w.
  assert (Hslot : error_slot w).
  { left. exists campo. reflexivity. }
  destruct (mostrarErro_last_call_wins "primeiro" "segundo" w Hslot)
    as (_ & Hshown & Hdet & _).
  split; [exact Hshown | exact Hdet].
Defined.

(** X13: on a page with neither the element [cep] nor the error element,
    [mostrarErro] never puts the message in the document: whatever the
    messages, the document stays as it was, and each call makes one more
    element that is in no document. *)
Theorem mostrarErro_without_cep (mensagens : list string) (w : World) :
  document w !! "cep" = None →
  document w !! "cep-erro" = None →
  let r := forEach mensagens mostrarErro w in
  r.1 = Return tt
  ∧ document r.2 = document w
  ∧ detached r.2
    = (detached w
       ++ ((λ m, show_message m new_error_element) <$> mensagens))%list
  ∧ length (timers r.2) = (length (timers w) + length mensagens)%nat.
Proof.
  revert w. induction mensagens as [|m ms IH]; intros w Hc He r.
  - unfold r. simpl. by rewrite app_nil_r, Nat.add_0_r.
  - unfold r. cbn [forEach]. unfold bind.
    rewrite (mostrarErro_no_slot m w Hc He).
    set (w1 := add_timer _ _).
    destruct (IH w1 Hc He) as (Hr & Hdoc & Hdet & Htim).
    rewrite Hr, Hdoc, Hdet, Htim. unfold w1. simpl.
    rewrite <- app_assoc, length_app. simpl.
    repeat split; try done. lia.
Qed.

Lemma mostrarErro_without_cep_witness :
  document (forEach ["um"; "dois"] mostrarErro empty_world).2 = ∅
  ∧ length (detached (forEach ["um"; "dois"] mostrarErro empty_world).2)
    = 2%nat.
Proof.
  destruct (mostrarErro_without_cep ["um"; "dois"] empty_world eq_refl eq_refl)
    as (_ & Hdoc & Hdet & _).
  split; [exact Hdoc |]. rewrite Hdet. reflexivity.
Defined.

(** X14: [removerErro] after [mostrarErro], on a page that has the element
    [cep] or the error element: the error element is hidden and keeps the
    message; showing again makes it visible again. *)
Theorem removerErro_after_mostrarErro (m m' : string) (w : World) :
  error_slot w →
  let w1 := (mostrarErro m w).2 in
  let w2 := (removerErro w1).2 in
  (∃ el, document w2 !! "cep-erro" = Some el
         ∧ display el = "none" ∧ textContent el = m)
  ∧ error_shown m' (mostrarErro m' w2).2.
Proof.
  intros Hslot w1 w2.
  destruct (mostrarErro_slot m w Hslot) as (el0 & H1 & _).
  assert (Hw2 : document w2 !! "cep-erro" = Some (hide (show_message m el0))).
  { unfold w2. rewrite removerErro_spec. unfold w1. rewrite H1. world_fields.
    by rewrite lookup_alter_eq, lookup_insert_eq. }
  split; [by eexists |].
  assert (Hslot2 : error_slot w2) by (right; by eexists).
  destruct (mostrarErro_slot m' w2 Hslot2) as (el2 & H2 & _).
  rewrite H2. unfold error_shown. world_fields. eexists. by rewrite lookup_insert_eq.
Qed.

Lemma removerErro_after_mostrarErro_witness :
  let campo :=
    {| value := ""; textContent := ""; className := ""; fontSize := "";
       display := "" |} in
  let w := set_document (λ _, {[ "cep" := campo ]}) empty_world in
  ∃ el, document (removerErro (mostrarErro "erro" w).2).2 !! "cep-erro"
        = Some el
        ∧ display el = "none" ∧ textContent el = "erro".
Proof.
  intros campo w.
  assert (Hslot : error_slot w).
  { left. exists campo. reflexivity. }
  exact (proj1 (removerErro_after_mostrarErro "erro" "outro" w Hslot)).
Defined.

(** X15: [removerErro] never throws and only hides: every element other than
    the error element is as before, the error element keeps all but its
    [display], nothing else in the world changes; without an error element
    nothing changes at all, and a second call changes nothing more. *)
Theorem removerErro_only_hides (w : World) :
  let w' := (removerErro w).2 in
  (removerErro w).1 = Return tt
  ∧ (∀ id, id ≠ "cep-erro" → document w' !! id = document w !! id)
  ∧ document w' !! "cep-erro" = hide <$> document w !! "cep-erro"
  ∧ (document w !! "cep-erro" = None → w' = w)
  ∧ (detached w' = detached w ∧ timers w' = timers w
     ∧ console w' = console w ∧ requests w' = requests w
     ∧ writes w' = writes w ∧ calls w' = calls w)
  ∧ removerErro w' = (Return tt, w').
Proof.
  intros w'. unfold w'.
  split; [by rewrite removerErro_spec |].
  split; [intros id Hne; rewrite removerErro_spec; world_fields;
          by rewrite lookup_alter_ne |].
  split; [rewrite removerErro_spec; world_fields; by rewrite lookup_alter_eq |].
  split; [intros He; unfold removerErro; by rewrite He |].
  split; [by rewrite removerErro_spec |].
  rewrite !removerErro_spec. world_fields. f_equal. unfold set_document. world_fields.
  f_equal. apply map_eq. intros id. rewrite !lookup_alter.
  case_decide; [| done]. by destruct (document w !! "cep-erro").
Qed.

(** X16: the timer that [mostrarErro] sets, of five seconds, hides what was
    shown when it runs: on a page with a place for the error it does what
    [removerErro] does, and otherwise it hides the element that is in no
    document. *)
Theorem timer_hides_what_was_shown (m : string) (w : World) :
  let w1 := (mostrarErro m w).2 in
  ∃ t, timers w1 = (timers w ++ [t])%list
       ∧ delay t = 5000%Z
       ∧ (run_timer t w1).1 = Return tt
       ∧ (error_slot w →
          (run_timer t w1).2 = (removerErro w1).2
          ∧ ∃ el, document (run_timer t w1).2 !! "cep-erro" = Some el
                  ∧ display el = "none" ∧ textContent el = m)
       ∧ (¬ error_slot w →
          document (run_timer t w1).2 = document w
          ∧ detached (run_timer t w1).2
            = (detached w ++ [hide (show_message m new_error_element)])%list).
Proof.
  intros w1. unfold w1.
  destruct (document w !! "cep-erro") as [el|] eqn:He;
    [| destruct (document w !! "cep") as [c|] eqn:Hc].
  1, 2: assert (Hslot : error_slot w)
          by (first [by right; eexists | by left; eexists]);
        destruct (mostrarErro_slot m w Hslot) as (el0 & -> & _);
        exists {| delay := 5000; hides := Attached "cep-erro" |};
        (split; [done |]); (split; [done |]); (split; [done |]);
        (split; [| done]); intros _;
        (split; [by rewrite removerErro_spec |]);
        world_fields; rewrite lookup_alter_eq, lookup_insert_eq; by eexists.
  rewrite (mostrarErro_no_slot m w Hc He).
  exists {| delay := 5000; hides := Detached (length (detached w)) |}.
  do 3 (split; [done |]). split.
  - intros [[? ?]|[? ?]]; congruence.
  - intros _. split; [done |]. world_fields.
    rewrite <- (Nat.add_0_r (length (detached w))). by rewrite alter_app_r.
Qed.

(** X17: a timer outlives the message it was set for: when a second message
    is shown before the first timer runs, that timer hides the second
    message, whose own timer is still pending. *)
Theorem stale_timer_hides_newer_message (m1 m2 : string) (w : World)
    (t1 : Timer) :
  error_slot w →
  let w1 := (mostrarErro m1 w).2 in
  let w2 := (mostrarErro m2 w1).2 in
  last (timers w1) = Some t1 →
  error_shown m2 w2
  ∧ (∃ el, document (run_timer t1 w2).2 !! "cep-erro" = Some el
           ∧ textContent el = m2 ∧ display el = "none")
  ∧ length (timers (run_timer t1 w2).2) = (length (timers w) + 2)%nat.
Proof.
  intros Hslot w1 w2 Ht1.
  destruct (mostrarErro_slot m1 w Hslot) as (el0 & H1 & _).
  assert (t1 = {| delay := 5000; hides := Attached "cep-erro" |}) as ->.
  { unfold w1 in Ht1. rewrite H1 in Ht1. simpl in Ht1.
    rewrite last_snoc in Ht1. congruence. }
  assert (Hslot1 : error_slot w1).
  { right. unfold w1. rewrite H1. world_fields. rewrite lookup_insert_eq. by eexists. }
  destruct (mostrarErro_slot m2 w1 Hslot1) as (el1 & H2 & _).
  unfold w2. rewrite H2. world_fields.
  split; [unfold error_shown; world_fields; eexists; by rewrite lookup_insert_eq |].
  split; [eexists; by rewrite lookup_alter_eq, lookup_insert_eq |].
  unfold w1. rewrite H1. world_fields. rewrite !length_app. simpl. lia.
Qed.

Lemma stale_timer_hides_newer_message_witness :
  let campo :=
    {| value := ""; textContent := ""; className := ""; fontSize := "";
       display := "" |} in
  let w := set_document (λ _, {[ "cep" := campo ]}) empty_world in
  let t1 := {| delay := 5000; hides := Attached "cep-erro" |} in
  let w2 := (mostrarErro "segundo" (mostrarErro "primeiro" w).2).2 in
  ∃ el, document (run_timer t1 w2).2 !! "cep-erro" = Some el
        ∧ textContent el = "segundo" ∧ display el = "none".
Proof.
  intros campo w t1 w2.
  assert (Hslot : error_slot w).
  { left. exists campo. reflexivity. }
  exact (proj1 (proj2 (stale_timer_hides_newer_message "primeiro" "segundo"
                         w t1 Hslot eq_refl))).
Defined.

(** ** [buscarEPreencher], the other paths *)

Section Paths.

Variable net : string → Outcome (Response AddressRecord).
Variables (this : CepObj) (cep : string) (campos : Binding).
Variable callback : option Callback.

Lemma preencherEndereco_frame (dados : AddressRecord) (w : World) :
  let w' := (preencherEndereco dados campos w).2 in
  requests w' = requests w ∧ console w' = console w
  ∧ timers w' = timers w ∧ calls w' = calls w.
Proof.
  rewrite preencherEndereco_returns. simpl.
  destruct (after_writes_spec
              (fill_writes dados (document w) (camposFinais campos)) w)
    as (_ & _ & _ & -> & -> & -> & ->).
  done.
Qed.

Lemma success_callback_traffic (dados : AddressRecord) (w : World) :
  let w' := (success_callback callback dados w).2 in
  requests w' = requests w ∧ console w' = console w ∧ timers w' = timers w.
Proof.
  unfold success_callback. destruct callback as [cb|]; [| done].
  by destruct (success cb).
Qed.

Lemma error_callback_traffic (e : JsError) (w : World) :
  let w' := (error_callback callback e w).2 in
  requests w' = requests w ∧ console w' = console w.
Proof.
  unfold error_callback.
  destruct callback as [cb|]; [destruct (error cb) as [h|]; [done |] |];
    by destruct (mostrarErro_frame (message e) w) as (_ & _ & _ & -> & ->).
Qed.

Lemma error_callback_none (e : JsError) (w : World) :
  callback ≫= error = None →
  error_callback callback e w = mostrarErro (message e) w.
Proof.
  intros H. unfold error_callback. destruct callback as [cb|]; [| done].
  simpl in H. by rewrite H.
Qed.

End Paths.

(** X18: when [buscarCep] returns a record, [buscarEPreencher] fills the
    form; without a [success] handler it returns the record in the world
    [preencherEndereco] leaves, and with one, which returns, the handler is
    called once, with the record, on the document already filled, and the
    record is returned.  No [error] handler is called and no timer is set. *)
Theorem buscarEPreencher_success
    (net : string → Outcome (Response AddressRecord)) (this : CepObj)
    (cep : string) (campos : Binding) (callback : option Callback)
    (w w1 : World) (dados : AddressRecord) :
  buscarCep net this cep w = (Return dados, w1) →
  let w2 := (preencherEndereco dados campos w1).2 in
  let r := buscarEPreencher net this cep campos callback w in
  match callback ≫= success with
  | Some h =>
      (h dados (document w2)).1 = Return tt →
      r = (Return dados,
           add_call (CalledSuccess dados)
             (set_document (λ _, (h dados (document w2)).2) w2))
      ∧ success_calls (calls r.2) = (success_calls (calls w) ++ [dados])%list
      ∧ error_calls (calls r.2) = error_calls (calls w)
      ∧ timers r.2 = timers w
  | None => r = (Return dados, w2) ∧ calls r.2 = calls w ∧ timers r.2 = timers w
  end.
Proof.
  intros Hl w2 r.
  pose proof (buscarCep_frame net this cep w) as (_ & _ & Ht & _ & Hc).
  rewrite Hl in Ht, Hc. simpl in Ht, Hc.
  destruct (preencherEndereco_frame campos dados w1) as (_ & _ & Ht2 & Hc2).
  fold w2 in Ht2, Hc2.
  unfold r. rewrite buscarEPreencher_catch, buscarEPreencher_try_lookup, Hl.
  fold w2. unfold success_callback.
  destruct callback as [cb|]; simpl; [| by rewrite Ht2, Hc2, Ht, Hc].
  destruct (success cb) as [h|]; simpl; [| by rewrite Ht2, Hc2, Ht, Hc].
  intros Hh. unfold call_handler. rewrite Hh. simpl.
  split; [done |]. rewrite Hc2, Hc, Ht2, Ht.
  unfold success_calls, error_calls. rewrite !omap_app. simpl.
  by rewrite app_nil_r.
Qed.

Lemma buscarEPreencher_success_witness :
  let dados : AddressRecord := {[ "cidade" := "Recife" ]} in
  let net := always {| ok := true; status := 200; json := Return dados |} in
  let h : Handler AddressRecord := λ _ doc, (Return tt, doc) in
  let callback := Some {| success := Some h; error := None |} in
  let r := buscarEPreencher net CepAPI_with_validarCep "50010-000" []
             callback empty_world in
  r.1 = Return dados ∧ success_calls (calls r.2) = [dados].
Proof.
  intros dados net h callback r.
  pose proof (buscarEPreencher_success net CepAPI_with_validarCep "50010-000"
                [] callback empty_world
                (add_request "https://brasilapi.com.br/api/cep/v1/50010000"
                   empty_world)
                dados eq_refl eq_refl) as (Hr & Hs & _).
  split; [| exact Hs]. unfold r. rewrite Hr. reflexivity.
Defined.

(** X19: a [success] handler that throws does so inside the [try], after the
    form was filled: the body of the [try] fails with the handler's error,
    which is then handled as any failure ([mostrarErro] when there is no
    [error] handler), and the values written stay written. *)
Theorem success_handler_failure
    (net : string → Outcome (Response AddressRecord)) (this : CepObj)
    (cep : string) (campos : Binding) (callback : option Callback)
    (w w1 : World) (dados : AddressRecord) (h : Handler AddressRecord)
    (e : JsError) :
  buscarCep net this cep w = (Return dados, w1) →
  callback ≫= success = Some h →
  let w2 := (preencherEndereco dados campos w1).2 in
  (h dados (document w2)).1 = Throw e →
  let w3 := add_call (CalledSuccess dados)
              (set_document (λ _, (h dados (document w2)).2) w2) in
  let r := buscarEPreencher net this cep campos callback w in
  buscarEPreencher_try net this cep campos callback w = (Throw e, w3)
  ∧ writes r.2
    = (writes w
       ++ fill_writes dados (document w) (camposFinais campos))%list
  ∧ (callback ≫= error = None →
     r = (Throw e, (mostrarErro (message e) w3).2)).
Proof.
  intros Hl Hs w2 Hh w3 r.
  assert (Htry : buscarEPreencher_try net this cep campos callback w
                 = (Throw e, w3)).
  { rewrite buscarEPreencher_try_lookup, Hl. fold w2.
    unfold success_callback. destruct callback as [cb|]; [| done].
    simpl in Hs. rewrite Hs. unfold call_handler. by rewrite Hh. }
  split; [done |].
  pose proof (buscarCep_frame net this cep w) as (Hd & _ & _ & Hw & _).
  rewrite Hl in Hd, Hw. simpl in Hd, Hw.
  assert (Hw3 : writes w3
                = (writes w
                   ++ fill_writes dados (document w) (camposFinais campos))%list).
  { unfold w3, w2. simpl. rewrite preencherEndereco_returns. simpl.
    destruct (after_writes_spec
                (fill_writes dados (document w1) (camposFinais campos)) w1)
      as (_ & -> & _). by rewrite Hw, Hd. }
  unfold r. rewrite buscarEPreencher_catch, Htry.
  pose proof (error_callback_writes callback e w3) as Hwr.
  split.
  - destruct (error_callback callback e w3) as [[[]|e'] w4]; simpl in *;
      by rewrite Hwr.
  - intros Hnone. rewrite (error_callback_none callback e w3 Hnone).
    destruct (mostrarErro_frame (message e) w3) as (Hret & _).
    by destruct (mostrarErro (message e) w3) as [[[]|e'] w4].
Qed.

Lemma success_handler_failure_witness :
  let dados : AddressRecord := {[ "cidade" := "Recife" ]} in
  let net := always {| ok := true; status := 200; json := Return dados |} in
  let e := Error "falhou" in
  let h : Handler AddressRecord := λ _ doc, (Throw e, doc) in
  let callback := Some {| success := Some h; error := None |} in
  let campo :=
    {| value := ""; textContent := ""; className := ""; fontSize := "";
       display := "" |} in
  let w := set_document (λ _, {[ "cidade" := campo ]}) empty_world in
  let r := buscarEPreencher net CepAPI_with_validarCep "50010-000" []
             callback w in
  r.1 = Throw e ∧ writes r.2 = [("cidade", "Recife")].
Proof.
  intros dados net e h callback campo w r.
  pose proof (success_handler_failure net CepAPI_with_validarCep "50010-000"
                [] callback w
                (add_request "https://brasilapi.com.br/api/cep/v1/50010000" w)
                dados h e eq_refl eq_refl eq_refl) as (_ & Hw & Hr).
  split; [| exact Hw]. unfold r. rewrite (Hr eq_refl). reflexivity.
Defined.

(** X20: [buscarEPreencher] makes no request and logs nothing of its own:
    the requests and the console are those of its call of [buscarCep], so
    there is at most one request, and no retry. *)
Theorem buscarEPreencher_traffic
    (net : string → Outcome (Response AddressRecord)) (this : CepObj)
    (cep : string) (campos : Binding) (callback : option Callback)
    (w : World) :
  let l := buscarCep net this cep w in
  let r := buscarEPreencher net this cep campos callback w in
  requests r.2 = requests l.2
  ∧ console r.2 = console l.2
  ∧ (requests r.2 = requests w
     ∨ ∃ url, requests r.2 = (requests w ++ [url])%list).
Proof.
  intros l r.
  assert (requests r.2 = requests l.2 ∧ console r.2 = console l.2)
    as [Hr Hc].
  { unfold r. rewrite buscarEPreencher_catch, buscarEPreencher_try_lookup.
    fold l. destruct l as [[dados|e] w1]; simpl.
    - destruct (preencherEndereco_frame campos dados w1) as (Hr2 & Hc2 & _).
      destruct (success_callback_traffic callback dados
                  (preencherEndereco dados campos w1).2) as (Hr3 & Hc3 & _).
      destruct (success_callback _ _ _) as [[[]|e] w3]; simpl in *.
      + by rewrite Hr3, Hc3, Hr2, Hc2.
      + destruct (error_callback_traffic callback e w3) as (Hr4 & Hc4).
        destruct (error_callback callback e w3) as [[[]|e'] w4]; simpl in *;
          by rewrite Hr4, Hc4, Hr3, Hc3, Hr2, Hc2.
    - destruct (error_callback_traffic callback e w1) as (Hr4 & Hc4).
      by destruct (error_callback callback e w1) as [[[]|e'] w4]. }
  split; [done |]. split; [done |]. rewrite Hr. unfold l.
  destruct (validarCep_method this) as [f|] eqn:H.
  - destruct (f (Regex.remove_non_digits cep)) eqn:Hf.
    + right. eexists. rewrite (buscarCep_valid net this f cep w H Hf).
      destruct (net _) as [resp|e]; [| done].
      destruct (ok resp); [by destruct (json resp) |].
      by destruct (status resp =? 404)%Z.
    + left. by rewrite (buscarCep_invalid net this f cep w H Hf).
  - left. by rewrite (buscarCep_no_method net this cep w H).
Qed.

(** X21: on an instance of the class as declared, a call of
    [buscarEPreencher] without an [error] handler, on a page that has the
    element [cep] or the error element, always ends with the message of the
    missing method shown in the error element; nothing was requested and no
    value was written. *)
Theorem CepAPI_buscarEPreencher_shows_TypeError
    (net : string → Outcome (Response AddressRecord)) (cep : string)
    (campos : Binding) (callback : option Callback) (w : World) :
  error_slot w →
  callback ≫= error = None →
  let r := buscarEPreencher net CepAPI cep campos callback w in
  r.1 = Throw (TypeError "this.validarCep is not a function")
  ∧ error_shown "this.validarCep is not a function" r.2
  ∧ requests r.2 = requests w
  ∧ writes r.2 = writes w.
Proof.
  intros Hslot Hnone r. unfold r.
  rewrite buscarEPreencher_catch, buscarEPreencher_try_lookup.
  rewrite (buscarCep_no_method net CepAPI cep w CepAPI_validarCep_method).
  rewrite (error_callback_none callback _ _ Hnone).
  set (w1 := add_console _ _ w).
  assert (Hslot1 : error_slot w1) by done.
  destruct (mostrarErro_slot "this.validarCep is not a function" w1 Hslot1)
    as (el0 & H & _).
  change (message (TypeError "this.validarCep is not a function"))
    with "this.validarCep is not a function".
  rewrite H. split; [done |]. split; [| done].
  unfold error_shown. world_fields. eexists. by rewrite lookup_insert_eq.
Qed.

Lemma CepAPI_buscarEPreencher_shows_TypeError_witness :
  let campo :=
    {| value := "01310-100"; textContent := ""; className := "form-control";
       fontSize := ""; display := "" |} in
  let w := set_document (λ _, {[ "cep" := campo ]}) empty_world in
  let net := always {| ok := true; status := 200; json := Return ∅ |} in
  error_shown "this.validarCep is not a function"
    (buscarEPreencher net CepAPI "01310-100" [] None w).2.
Proof.
  intros campo w net.
  assert (Hslot : error_slot w).
  { left. exists campo. reflexivity. }
  exact (proj1 (proj2 (CepAPI_buscarEPreencher_shows_TypeError net "01310-100"
                         [] None w Hslot eq_refl))).
Defined.
